(** * typein_tokenizer: a shallow embedding of [tokenizer.py]

    The tokenizer turns Commodore BASIC source text into the byte image of
    a tokenized program.  Python [str] values are modelled as [string],
    that is, sequences of code points in U+0000..U+00FF (Latin-1); the
    character classes below ([isspace], [isdigit], [isword], [upper],
    [lower]) are CPython's on that range.  Python [int] values are [Z].
    Exceptions are values of [exn], carried by the [result] monad. *)

From Stdlib Require Import ZArith List String Ascii Bool Lia Arith.
Import ListNotations.

Local Open Scope string_scope.
Local Open Scope list_scope.
Local Open Scope Z_scope.

Infix "+++" := String.append (at level 60, right associativity).

(** ** Exceptions *)

Inductive exn : Set :=
| ValueError
| OverflowError
| NameError
| KeyError
| IndexError
| FuelExhausted.  (* not a Python exception: the bounded loop ran dry;
                     shown unreachable in [scan_loop_fuel] *)

Inductive result (A : Type) : Type :=
| Ok (a : A)
| Raise (e : exn).
Arguments Ok {A} a.
Arguments Raise {A} e.

Definition bind {A B} (r : result A) (k : A -> result B) : result B :=
  match r with
  | Ok a => k a
  | Raise e => Raise e
  end.

Notation "x <- e ;; k" := (bind e (fun x => k))
  (at level 61, e at next level, right associativity).
Notation "' p <- e ;; k" := (bind e (fun x => let p := x in k))
  (at level 61, p pattern, e at next level, right associativity).

(** ** Characters and strings *)

(** [ord(c)] for a character of U+0000..U+00FF, the only characters of
    this model.  Python's [ord] has no such bound: a text with a code
    point above 255 lies outside the model, and a property that depends
    on the bound says so. *)
Definition ord (c : ascii) : Z := Z.of_N (N_of_ascii c).

Definition chr (n : Z) : ascii := ascii_of_N (Z.to_N n).

Definition in_range (lo hi n : Z) : bool := (lo <=? n) && (n <=? hi).

(** [str.isspace] on U+0000..U+00FF. *)
Definition isspace (c : ascii) : bool :=
  let n := ord c in
  in_range 9 13 n || in_range 28 32 n || (n =? 133) || (n =? 160).

(** [str.isdigit] on U+0000..U+00FF: the ASCII digits and the three
    superscript digits. *)
Definition isdigit (c : ascii) : bool :=
  let n := ord c in
  in_range 48 57 n || (n =? 178) || (n =? 179) || (n =? 185).

(** The regular-expression class [\w] for [str] patterns on
    U+0000..U+00FF: alphanumeric characters and the underscore. *)
Definition isword (c : ascii) : bool :=
  let n := ord c in
  in_range 48 57 n || in_range 65 90 n || (n =? 95) || in_range 97 122 n
  || (n =? 170) || (n =? 178) || (n =? 179) || (n =? 181) || (n =? 185)
  || (n =? 186) || in_range 188 190 n || in_range 192 214 n
  || in_range 216 246 n || in_range 248 255 n.

(** [str.lower] of one character (stays inside Latin-1). *)
Definition lower_char (c : ascii) : ascii :=
  let n := ord c in
  if in_range 65 90 n || in_range 192 214 n || in_range 216 222 n
  then chr (n + 32) else c.

Fixpoint lower (s : string) : string :=
  match s with
  | EmptyString => EmptyString
  | String c s' => String (lower_char c) (lower s')
  end.

(** [str.upper] of one character, as a list of code points: three Latin-1
    characters have an upper case outside Latin-1 or of two characters. *)
Definition upper_char (c : ascii) : list Z :=
  let n := ord c in
  if in_range 97 122 n || in_range 224 246 n || in_range 248 254 n
  then [n - 32]
  else if n =? 181 then [924]
  else if n =? 223 then [83; 83]
  else if n =? 255 then [376]
  else [n].

Fixpoint upper (s : string) : list Z :=
  match s with
  | EmptyString => []
  | String c s' => upper_char c ++ upper s'
  end.

Fixpoint code_points (s : string) : list Z :=
  match s with
  | EmptyString => []
  | String c s' => ord c :: code_points s'
  end.

(** The one-character string of the double quote, code point 34. *)
Definition dquote : string := String (chr 34) EmptyString.

(** [s.lstrip()] *)
Fixpoint lstrip (s : string) : string :=
  match s with
  | EmptyString => EmptyString
  | String c s' => if isspace c then lstrip s' else s
  end.

(** [s.rstrip()] *)
Fixpoint rstrip (s : string) : string :=
  match s with
  | EmptyString => EmptyString
  | String c s' =>
      match rstrip s' with
      | EmptyString => if isspace c then EmptyString else String c EmptyString
      | r => String c r
      end
  end.

(** [ln.startswith(token)] *)
Fixpoint startswith (ln token : string) {struct token} : bool :=
  match token with
  | EmptyString => true
  | String t token' =>
      match ln with
      | EmptyString => false
      | String c ln' => (c =? t)%char && startswith ln' token'
      end
  end.

(** [ln[n:]] *)
Fixpoint drop (n : nat) (ln : string) : string :=
  match n, ln with
  | O, _ => ln
  | S _, EmptyString => EmptyString
  | S n', String _ ln' => drop n' ln'
  end.

(** ** Token tables *)

Definition table : Type := list (string * Z).

(** Dictionary for special character conversion from ahoy to petcat. *)
Definition AHOY_TO_PETCAT : list (string * string) :=
  [ ("{SC}", "{clr}"); ("{HM}", "{home}"); ("{CU}", "{up}");
    ("{CD}", "{down}"); ("{CL}", "{left}"); ("{CR}", "{rght}");
    ("{SS}", "{$a0}"); ("{IN}", "{inst}"); ("{RV}", "{rvon}");
    ("{RO}", "{rvof}"); ("{BK}", "{blk}"); ("{WH}", "{wht}");
    ("{RD}", "{red}"); ("{CY}", "{cyn}"); ("{PU}", "{pur}");
    ("{GN}", "{grn}"); ("{BL}", "{blu}"); ("{YL}", "{yel}");
    ("{OR}", "{orng}"); ("{BR}", "{brn}"); ("{LR}", "{lred}");
    ("{G1}", "{gry1}"); ("{G2}", "{gry2}"); ("{LG}", "{lgrn}");
    ("{LB}", "{lblu}"); ("{G3}", "{gry3}"); ("{F1}", "{f1}");
    ("{F2}", "{f2}"); ("{F3}", "{f3}"); ("{F4}", "{f4}");
    ("{F5}", "{f5}"); ("{F6}", "{f6}"); ("{F7}", "{f7}");
    ("{F8}", "{f8}") ].

(** Core Commodore BASIC tokens. *)
Definition CORE_TOKENS : table :=
  [ ("end", 128); ("for", 129); ("next", 130); ("data", 131);
    ("input#", 132); ("input", 133); ("dim", 134); ("read", 135);
    ("let", 136); ("goto", 137); ("run", 138); ("if", 139);
    ("restore", 140); ("gosub", 141); ("return", 142); ("rem", 143);
    ("stop", 144); ("on", 145); ("wait", 146); ("load", 147);
    ("save", 148); ("verify", 149); ("def", 150); ("poke", 151);
    ("print#", 152); ("print", 153); ("cont", 154); ("list", 155);
    ("clr", 156); ("cmd", 157); ("sys", 158); ("open", 159);
    ("close", 160); ("get", 161); ("new", 162); ("tab(", 163);
    ("to", 164); ("fn", 165); ("spc(", 166); ("then", 167);
    ("not", 168); ("step", 169); ("+", 170); ("-", 171); ("*", 172);
    ("/", 173); ("^", 174); ("and", 175); ("or", 176); (">", 177);
    ("=", 178); ("<", 179); ("sgn", 180); ("int", 181); ("abs", 182);
    ("usr", 183); ("fre", 184); ("pos", 185); ("sqr", 186);
    ("rnd", 187); ("log", 188); ("exp", 189); ("cos", 190);
    ("sin", 191); ("tan", 192); ("atn", 193); ("peek", 194);
    ("len", 195); ("str$", 196); ("val", 197); ("asc", 198);
    ("chr$", 199); ("left$", 200); ("right$", 201); ("mid$", 202);
    ("go", 203) ].

(** Tokens for special character designations used by petcat. *)
Definition PETCAT_TOKENS : table :=
  [ ("{clr}", 147); ("{home}", 19); ("{up}", 145); ("{down}", 17);
    ("{left}", 157); ("{rght}", 29); ("{$a0}", 160); ("{inst}", 148);
    ("{rvon}", 18); ("{rvof}", 146); ("{blk}", 144); ("{wht}", 5);
    ("{red}", 28); ("{cyn}", 159); ("{pur}", 156); ("{grn}", 30);
    ("{blu}", 31); ("{yel}", 158); ("{orng}", 129); ("{brn}", 149);
    ("{lred}", 150); ("{gry1}", 151); ("{gry2}", 152); ("{lgrn}", 153);
    ("{lblu}", 154); ("{gry3}", 155); ("{f1}", 133); ("{f2}", 134);
    ("{f3}", 135); ("{f4}", 136); ("{f5}", 137); ("{f6}", 138);
    ("{f7}", 139); ("{f8}", 140) ].

(** ** The scanner *)

(** The loop [for (token, value) in tbl: if ln.startswith(token): return
    (value, ln[len(token):])]; [None] when the loop falls through. *)
Fixpoint first_match (tbl : table) (ln : string) : option (Z * string) :=
  match tbl with
  | [] => None
  | (token, value) :: tbl' =>
      if startswith ln token
      then Some (value, drop (String.length token) ln)
      else first_match tbl' ln
  end.

(** The tail of [scan]: one literal character, lower-case ASCII letters
    folded to upper case.  [ln[0]] raises IndexError on the empty string. *)
Definition scan_char (ln : string) : result (Z * string) :=
  match ln with
  | EmptyString => Raise IndexError
  | String c rest =>
      let char_val := ord c in
      let char_val :=
        if (char_val >=? 97) && (char_val <=? 122)
        then char_val - 32 else char_val in
      Ok (char_val, rest)
  end.

(** [scan(ln, tokenize)].  The module-level name [TOKENS] is bound only
    after [main] has seen version '2'; [None] is the unbound name, whose
    use raises NameError. *)
Definition scan (TOKENS : option table) (ln : string) (tokenize : bool)
  : result (Z * string) :=
  match first_match PETCAT_TOKENS ln with
  | Some r => Ok r
  | None =>
      if tokenize then
        match TOKENS with
        | None => Raise NameError
        | Some tokens =>
            match first_match tokens ln with
            | Some r => Ok r
            | None => scan_char ln
            end
        end
      else scan_char ln
  end.

(** The state of the loop of [scan_manager]. *)
Record lexer : Type := Lexer {
  in_quotes : bool;
  in_remark : bool;
  bytes : list Z
}.

(** The body of the [while ln:] loop, after [scan] has returned [byte]. *)
Definition record_byte (st : lexer) (byte : Z) : lexer :=
  let bytes := bytes st ++ [byte] in
  let in_quotes :=
    if byte =? 34 then negb (in_quotes st) else in_quotes st in
  let in_remark := if byte =? 143 then true else in_remark st in
  Lexer in_quotes in_remark bytes.

(** The [while ln:] loop of [scan_manager], bounded by [fuel] iterations. *)
Fixpoint scan_loop (TOKENS : option table) (fuel : nat) (ln : string)
  (st : lexer) : result lexer :=
  match ln with
  | EmptyString => Ok st
  | _ =>
      match fuel with
      | O => Raise FuelExhausted
      | S fuel' =>
          '(byte, ln') <-
            scan TOKENS ln (negb (in_quotes st || in_remark st)) ;;
          scan_loop TOKENS fuel' ln' (record_byte st byte)
      end
  end.

(** The loop run from the initial state; every iteration consumes at
    least one character, so [String.length ln] iterations suffice. *)
Definition scan_state (TOKENS : option table) (ln : string)
  : result lexer :=
  scan_loop TOKENS (String.length ln) ln (Lexer false false []).

(** [scan_manager(ln)] *)
Definition scan_manager (TOKENS : option table) (ln : string)
  : result (list Z) :=
  st <- scan_state TOKENS ln ;;
  Ok (bytes st ++ [0]).


(** ** The line splitter *)

(** The loop [while line and line[0].isdigit()] of [split_line_num]: the
    characters moved to [acc], and what is left of [line]. *)
Fixpoint take_digits (line : string) : string * string :=
  match line with
  | EmptyString => (EmptyString, EmptyString)
  | String c line' =>
      if isdigit c
      then let (acc, rest) := take_digits line' in (String c acc, rest)
      else (EmptyString, line)
  end.

Fixpoint decimal (s : string) (acc : Z) : option Z :=
  match s with
  | EmptyString => Some acc
  | String c s' =>
      let n := ord c in
      if in_range 48 57 n then decimal s' (10 * acc + (n - 48)) else None
  end.

(** CPython's default [sys.int_max_str_digits] (3.11 and later). *)
Definition int_max_str_digits : nat := 4300.

(** [int(s)] on a string [s] of [isdigit] characters, the only strings
    [split_line_num] passes: the empty string, a superscript digit, or
    more digits than [int_max_str_digits] raise ValueError. *)
Definition int_of_digits (s : string) : result Z :=
  match s with
  | EmptyString => Raise ValueError
  | _ =>
      if (int_max_str_digits <? String.length s)%nat then Raise ValueError
      else match decimal s 0 with
           | Some n => Ok n
           | None => Raise ValueError
           end
  end.

(** [split_line_num(line)] *)
Definition split_line_num (line : string) : result (Z * string) :=
  let line := lstrip line in
  let (acc, line) := take_digits line in
  n <- int_of_digits acc ;;
  Ok (n, lstrip line).

(** ** The ahoy normalizer *)

(** Does the pattern [\{\w{2}\}] match these four characters? *)
Definition is_code (c0 a b c3 : ascii) : bool :=
  (c0 =? "{")%char && isword a && isword b && (c3 =? "}")%char.

(** Prepend a character to the first piece of a split. *)
Definition push (c : ascii) (pieces : list string) : list string :=
  match pieces with
  | [] => [String c EmptyString]
  | s :: pieces' => String c s :: pieces'
  end.

(** [re.split(r"\{\w{2}\}", line)]: the pieces between the leftmost,
    non-overlapping matches. *)
Fixpoint re_split (line : string) : list string :=
  match line with
  | EmptyString => [EmptyString]
  | String c0 line' =>
      match line' with
      | String a (String b (String c3 rest)) =>
          if is_code c0 a b c3 then EmptyString :: re_split rest
          else push c0 (re_split line')
      | _ => push c0 (re_split line')
      end
  end.

(** [re.findall(r"\{\w{2}\}", line)]: the matches themselves. *)
Fixpoint re_findall (line : string) : list string :=
  match line with
  | EmptyString => []
  | String c0 line' =>
      match line' with
      | String a (String b (String c3 rest)) =>
          if is_code c0 a b c3
          then String c0 (String a (String b (String c3 EmptyString)))
               :: re_findall rest
          else re_findall line'
      | _ => re_findall line'
      end
  end.

(** [re.search(r"\}|{", sub_str) is not None] *)
Fixpoint has_brace (sub_str : string) : bool :=
  match sub_str with
  | EmptyString => false
  | String c s' => (c =? "}")%char || (c =? "{")%char || has_brace s'
  end.

(** [AHOY_TO_PETCAT[key]], the key given by its code points. *)
Fixpoint dict_get (d : list (string * string)) (key : list Z)
  : result string :=
  match d with
  | [] => Raise KeyError
  | (k, v) :: d' =>
      if list_eq_dec Z.eq_dec (code_points k) key then Ok v
      else dict_get d' key
  end.

(** The loop [for item in code_split: new_codes.append(...)]. *)
Fixpoint lookup_codes (code_split : list string) : result (list string) :=
  match code_split with
  | [] => Ok []
  | item :: items =>
      code <- dict_get AHOY_TO_PETCAT (upper item) ;;
      codes <- lookup_codes items ;;
      Ok (code :: codes)
  end.

(** The loop [for count, segment in enumerate(new_codes)], appending
    [str_split[count]] and then [new_codes[count]]. *)
Fixpoint weave (str_split new_codes : list string) : result (list string) :=
  match new_codes with
  | [] => Ok []
  | code :: codes =>
      match str_split with
      | [] => Raise IndexError
      | piece :: pieces =>
          new_line <- weave pieces codes ;;
          Ok (piece :: code :: new_line)
      end
  end.

(** [''.join(new_line)] *)
Fixpoint join (new_line : list string) : string :=
  match new_line with
  | [] => EmptyString
  | s :: new_line' => s +++ join new_line'
  end.

(** What [ahoy_lines_list] returns: the list [new_lines], or the pair
    [(None, line)]. *)
Inductive ahoy_result : Type :=
| NewLines (new_lines : list string)
| LooseBrace (line : string).

(** The body of the outer loop for one line, up to [''.join(new_line)];
    [None] is the early [return (None, line)]. *)
Definition ahoy_line (line : string) : result (option string) :=
  let str_split := re_split line in
  if existsb has_brace str_split then Ok None
  else
    let code_split := re_findall line in
    new_codes <- lookup_codes code_split ;;
    new_line <-
      match new_codes with
      | [] => Ok str_split
      | _ => weave str_split (new_codes ++ [EmptyString])
      end ;;
    Ok (Some (join new_line)).

Fixpoint ahoy_loop (lines_list new_lines : list string)
  : result ahoy_result :=
  match lines_list with
  | [] => Ok (NewLines new_lines)
  | line :: rest =>
      r <- ahoy_line line ;;
      match r with
      | None => Ok (LooseBrace line)
      | Some new_line => ahoy_loop rest (new_lines ++ [new_line])
      end
  end.

(** [ahoy_lines_list(lines_list)] *)
Definition ahoy_lines_list (lines_list : list string) : result ahoy_result :=
  ahoy_loop lines_list [].

(** ** Reading the source *)

(** [line.strip()] *)
Definition strip (line : string) : string := rstrip (lstrip line).

(** [read_file], applied to the lines [file.readlines()] returned. *)
Fixpoint read_file (lines : list string) : list string :=
  match lines with
  | [] => []
  | line :: rest =>
      match strip line with
      | EmptyString => read_file rest
      | _ => lower (rstrip line) :: read_file rest
      end
  end.

(** ** The assembler *)

Fixpoint le_bytes (length : nat) (n : Z) : list Z :=
  match length with
  | O => []
  | S length' => n mod 256 :: le_bytes length' (n / 256)
  end.

(** [n.to_bytes(length, 'little')], as the list of the bytes. *)
Definition to_bytes (n : Z) (length : nat) : result (list Z) :=
  if (n <? 0) || (256 ^ Z.of_nat length <=? n) then Raise OverflowError
  else Ok (le_bytes length n).

(** The loop [for line in lines_list] of [main]: the lists appended to
    [out_list].  [load] is [int(load_addr, 16)], [addr] the running
    address. *)
Fixpoint assemble_lines (TOKENS : option table) (load addr : Z)
  (lines_list : list string) : result (list (list Z)) :=
  match lines_list with
  | [] => Ok []
  | line :: rest =>
      '(line_num, line_txt) <- split_line_num line ;;
      header <- (if addr =? load
                 then b <- to_bytes addr 2 ;; Ok [b]
                 else Ok []) ;;
      byte_list <- scan_manager TOKENS line_txt ;;
      let addr := addr + Z.of_nat (List.length byte_list) + 4 in
      link <- to_bytes addr 2 ;;
      number <- to_bytes line_num 2 ;;
      let token_ln := List.concat (header ++ [link; number; byte_list]) in
      out_list <- assemble_lines TOKENS load addr rest ;;
      Ok (token_ln :: out_list)
  end.

(** Lines 351 to 381 of [main]: the flattened [out_list]. *)
Definition assemble (TOKENS : option table) (load : Z)
  (lines_list : list string) : result (list Z) :=
  out_list <- assemble_lines TOKENS load load lines_list ;;
  Ok (List.concat (out_list ++ [[0; 0]])).

(** ** The program *)

(** [write_binary]: the bytes written before the first failure, and how
    the loop ended. *)
Fixpoint write_binary (int_list : list Z) : list Z * result unit :=
  match int_list with
  | [] => ([], Ok tt)
  | byte :: rest =>
      match to_bytes byte 1 with
      | Raise e => ([], Raise e)
      | Ok b => let (written, r) := write_binary rest in (b ++ written, r)
      end
  end.

(** The command line and the source file, as [main] sees them. *)
Record args : Type := Args {
  loadaddr : result Z;             (* int(args.loadaddr[0], 16) *)
  version : string;                (* args.version[0] *)
  source : string;                 (* args.source[0] *)
  file_in : option (list string)   (* file.readlines(); None: IOError *)
}.

(** The output files found on disk, and the answers typed at the two
    overwrite prompts. *)
Record console : Type := Console {
  bas_isfile : bool;
  bas_answer : string;
  prg_isfile : bool;
  prg_answer : string
}.

(** How a run of [main] ends. *)
Inductive status : Type :=
| Returned                          (* main returns None *)
| UsageError                        (* argparse rejects a choice *)
| FileReadFailed                    (* message, sys.exit(1) *)
| LooseBraceError (line : string)   (* message quoting line, sys.exit(1) *)
| NotOverwritten                    (* message, sys.exit(1) *)
| Uncaught (e : exn).               (* traceback *)

(** A run: how it ended and the files it wrote ([None]: not written). *)
Record run : Type := Run {
  exit : status;
  bas_file : option (list string);   (* the lines, each followed by \n *)
  prg_file : option (list Z)
}.

Definition version_choices : list string := ["1"; "2"; "3"; "4"; "7"].
Definition source_choices : list string := ["pet"; "ahoy"].

(** The choices [parse_args] enforces. *)
Definition parse_args (a : args) : bool :=
  existsb (String.eqb (version a)) version_choices
  && existsb (String.eqb (source a)) source_choices.

(** Lines 323 to 331: the lines to tokenize, or the way [main] ends. *)
Definition petcat_lines (src : string) (lines_list : list string)
  : status + list string :=
  if (src =? "ahoy")%string then
    match ahoy_lines_list lines_list with
    | Raise e => inl (Uncaught e)
    | Ok (LooseBrace line) => inl (LooseBraceError line)
    | Ok (NewLines []) => inl (Uncaught IndexError)   (* lines_list[0] *)
    | Ok (NewLines new_lines) => inr new_lines
    end
  else inr lines_list.

(** The binding of the module global [TOKENS] after lines 347 to 349:
    [CORE_TOKENS] for version '2'; for any other version the binding it
    had when [main] was entered ([None]: unbound). *)
Definition configure_tokens (TOKENS : option table) (v : string)
  : option table :=
  if (v =? "2")%string then Some CORE_TOKENS else TOKENS.

(** The script run from the command line: the global is unbound. *)
Definition fresh_interpreter : option table := None.

(** The bindings the module itself gives its global: none, or
    [CORE_TOKENS], left by an earlier call of [main] with version '2' in
    the same interpreter. *)
Definition module_binding (TOKENS : option table) : Prop :=
  TOKENS = None \/ TOKENS = Some CORE_TOKENS.

(** [overwrite.lower() == 'y'], where [overwrite] is 'y' unless the file
    exists and the prompt was answered. *)
Definition confirmed (isfile : bool) (answer : string) : bool :=
  let overwrite := if isfile then answer else "y" in
  (lower overwrite =? "y")%string.

(** Lines 346 to 395, entered with the .bas file written; [TOKENS] is
    the binding of the global when [main] was entered. *)
Definition tokenize_and_write (TOKENS : option table) (a : args)
  (io : console) (lines_list : list string) : run :=
  let bas := Some lines_list in
  let TOKENS := configure_tokens TOKENS (version a) in
  match (load <- loadaddr a ;; assemble TOKENS load lines_list) with
  | Raise e => Run (Uncaught e) bas None
  | Ok out_list =>
      match nth_error out_list 561 with
      | None => Run (Uncaught IndexError) bas None   (* out_list[561] *)
      | Some _ =>
          if confirmed (prg_isfile io) (prg_answer io) then
            let (written, r) := write_binary out_list in
            match r with
            | Ok _ => Run Returned bas (Some written)
            | Raise e => Run (Uncaught e) bas (Some written)
            end
          else Run NotOverwritten bas None
      end
  end.

(** [main], called with the module global [TOKENS] bound as given. *)
Definition main (TOKENS : option table) (a : args) (io : console) : run :=
  if negb (parse_args a) then Run UsageError None None
  else
    match file_in a with
    | None => Run FileReadFailed None None
    | Some lines =>
        match petcat_lines (source a) (read_file lines) with
        | inl st => Run st None None
        | inr lines_list =>
            if confirmed (bas_isfile io) (bas_answer io)
            then tokenize_and_write TOKENS a io lines_list
            else Run NotOverwritten None None
        end
    end.

(** No output file exists beforehand: neither prompt is shown. *)
Definition fresh_disk : console := Console false EmptyString false EmptyString.

(** * Specification vocabulary *)

(** A table entry is well formed when its token is not empty (an empty
    token would match everywhere and consume nothing). *)
Definition nonempty_tokens (tbl : table) : Prop :=
  Forall (fun e => fst e <> EmptyString) tbl.

(** The token table, when bound, has no empty token. *)
Definition tokens_ok (TOKENS : option table) : Prop :=
  match TOKENS with
  | Some tokens => nonempty_tokens tokens
  | None => True
  end.

(** The loop of [scan_manager] entered in state [st]. *)
Definition scan_from (TOKENS : option table) (ln : string) (st : lexer)
  : result lexer :=
  scan_loop TOKENS (String.length ln) ln st.

(** The [tokenize] argument [scan_manager] passes in state [st]. *)
Definition tokenizing (st : lexer) : bool :=
  negb (in_quotes st || in_remark st).

(** Number of double-quote characters in a text. *)
Fixpoint count_dq (s : string) : nat :=
  match s with
  | EmptyString => 0%nat
  | String c s' =>
      ((if (ord c =? 34)%Z then 1 else 0) + count_dq s')%nat
  end.

(** Number of double-quote bytes in a byte sequence. *)
Definition count_34 (bs : list Z) : nat := count_occ Z.eq_dec bs 34.

(** One for the double-quote byte, zero for any other. *)
Definition is_quote (v : Z) : nat := if v =? 34 then 1%nat else 0%nat.

(** No entry of the table is or contains a double quote. *)
Definition quote_free (tbl : table) : bool :=
  forallb (fun e => negb (snd e =? 34) && (count_dq (fst e) =? 0)%nat) tbl.

(** The tokenized byte sequence of one program line: what [main] computes
    as [byte_list]. *)
Definition line_bytes (TOKENS : option table) (line : string)
  : result (list Z) :=
  '(_, line_txt) <- split_line_num line ;;
  scan_manager TOKENS line_txt.

(** The example line [10 print "hi"]. *)
Definition print_hi : string := "10 print " +++ dquote +++ "hi" +++ dquote.

(** Does the text begin with one of the ASCII digits? *)
Definition starts_with_ascii_digit (s : string) : bool :=
  match s with
  | EmptyString => false
  | String c _ => in_range 48 57 (ord c)
  end.

(** The byte [scan] emits for a character it takes literally. *)
Definition folded_char (c : ascii) : Z :=
  let char_val := ord c in
  if (char_val >=? 97) && (char_val <=? 122) then char_val - 32
  else char_val.

(** Where a byte of the output comes from. *)
Inductive origin : Set := Mnemonic | Keyword | Literal.

(** The branch of [scan] that returns on a text it accepts. *)
Definition scan_origin (TOKENS : option table) (ln : string)
  (tokenize : bool) : origin :=
  match first_match PETCAT_TOKENS ln with
  | Some _ => Mnemonic
  | None =>
      if tokenize then
        match TOKENS with
        | Some tokens =>
            match first_match tokens ln with
            | Some _ => Keyword
            | None => Literal
            end
        | None => Literal
        end
      else Literal
  end.

(** One iteration of the loop of [scan_manager]: the text left when it
    began, the branch of [scan] taken, the byte appended, the text left
    when it ended. *)
Record event : Type := Event {
  at_text : string;
  from : origin;
  byte : Z;
  rest_text : string
}.

(** The loop of [scan_manager] again, recording its iterations. *)
Fixpoint trace_loop (TOKENS : option table) (fuel : nat) (ln : string)
  (st : lexer) : result (list event) :=
  match ln with
  | EmptyString => Ok []
  | _ =>
      match fuel with
      | O => Raise FuelExhausted
      | S fuel' =>
          '(b, ln') <- scan TOKENS ln (tokenizing st) ;;
          events <- trace_loop TOKENS fuel' ln' (record_byte st b) ;;
          Ok (Event ln (scan_origin TOKENS ln (tokenizing st)) b ln'
              :: events)
      end
  end.

Definition trace_from (TOKENS : option table) (ln : string) (st : lexer)
  : result (list event) :=
  trace_loop TOKENS (String.length ln) ln st.

Definition scan_trace (TOKENS : option table) (ln : string)
  : result (list event) :=
  trace_from TOKENS ln (Lexer false false []).

(** The events are the consecutive iterations over [txt]: the first
    begins with [txt], each begins with what the one before left, and
    the last leaves nothing. *)
Fixpoint chained (txt : string) (events : list event) : Prop :=
  match events with
  | [] => txt = EmptyString
  | e :: events' => at_text e = txt /\ chained (rest_text e) events'
  end.

(** A mnemonic of the petcat table begins the text. *)
Definition mnemonic_begins (ln : string) : Prop :=
  exists token v rest, In (token, v) PETCAT_TOKENS /\ ln = token +++ rest.

(** What an event of each origin is, in terms of the tables and the
    text: a mnemonic event consumes a mnemonic of the petcat table and
    appends its value; a keyword event consumes a token of the keyword
    table and appends its value, where no mnemonic begins the text; a
    literal event consumes one character and appends it, folded, where
    no mnemonic begins the text. *)
Definition explained (tokens : table) (e : event) : Prop :=
  match from e with
  | Mnemonic =>
      exists token,
        In (token, byte e) PETCAT_TOKENS
        /\ at_text e = token +++ rest_text e
  | Keyword =>
      (exists token,
         In (token, byte e) tokens /\ at_text e = token +++ rest_text e)
      /\ ~ mnemonic_begins (at_text e)
  | Literal =>
      (exists c,
         at_text e = String c (rest_text e) /\ byte e = folded_char c)
      /\ ~ mnemonic_begins (at_text e)
  end.

(** Mnemonic matching is in force at an event: whenever a mnemonic of
    the petcat table begins the text left, the event consumes exactly
    that mnemonic and appends its value. *)
Definition mnemonic_active (e : event) : Prop :=
  forall token v rest,
    In (token, v) PETCAT_TOKENS ->
    at_text e = token +++ rest ->
    from e = Mnemonic /\ byte e = v /\ rest_text e = rest.

(** The text [rem print{clr}]. *)
Definition rem_print_clr : string := "rem print{clr}".

(** The one-line program [10 print "hi"], converted with version 3. *)
Definition version_3_args : args :=
  Args (Ok 2049) "3" "pet" (Some [print_hi]).

(** The 16-bit little-endian field at offset [off] of a byte stream. *)
Definition field16 (out : list Z) (off : nat) : option Z :=
  match nth_error out off, nth_error out (S off) with
  | Some lo, Some hi => Some (lo + 256 * hi)
  | _, _ => None
  end.

(** Memory taken by a run of framed lines: for each, 4 bytes of link and
    line number and the tokenized bytes. *)
Fixpoint frames_size (toks : list (list Z)) : nat :=
  match toks with
  | [] => 0%nat
  | byte_list :: toks' => (4 + List.length byte_list + frames_size toks')%nat
  end.

(** A program of 113 lines, each the bare line number 10. *)
Definition bare_lines : list string := repeat "10" 113.

(** A run with version 3 chosen, on [bare_lines]. *)
Definition version_3_run : run :=
  main fresh_interpreter (Args (Ok 2049) "3" "pet" (Some bare_lines))
       fresh_disk.

(** A run with version 2 on the two-line program of the example. *)
Definition small_args : args :=
  Args (Ok 2049) "2" "pet" (Some [print_hi; "20 goto 10"]).

(** The text is the sequence [ms] of mnemonics of the petcat table. *)
Definition mnemonics (ms : table) (txt : string) : Prop :=
  Forall (fun m => In m PETCAT_TOKENS) ms /\ txt = join (map fst ms).

(** No entry of the table has the value of the double quote or of REM. *)
Definition state_neutral (tbl : table) : bool :=
  forallb (fun e => negb (snd e =? 34) && negb (snd e =? 143)) tbl.

(** The four characters of a placeholder [{ab}]. *)
Definition code (a b : ascii) : string :=
  String "{" (String a (String b (String "}" EmptyString))).

(** Is the character a brace? *)
Definition is_brace (c : ascii) : bool := (c =? "}")%char || (c =? "{")%char.

(** Does the pattern [\{\w{2}\}] match at the head of the text? *)
Definition opens_code (s : string) : bool :=
  match s with
  | String c0 (String a (String b (String c3 _))) => is_code c0 a b c3
  | _ => false
  end.

(** [line] holds a brace outside every match of the pattern: a brace at
    some position [i] that none of the four-character windows covering
    [i] matches. *)
Definition stray_brace (line : string) : Prop :=
  exists i c,
    String.get i line = Some c
    /\ is_brace c = true
    /\ forall p, (p <= i < p + 4)%nat -> opens_code (drop p line) = false.

(** [normal_form line new_line]: [line] is brace-free text interleaved
    with placeholders of the ahoy table, and [new_line] is [line] with
    each placeholder replaced by its petcat mnemonic. *)
Inductive normal_form : string -> string -> Prop :=
| nf_text (s : string) :
    has_brace s = false -> normal_form s s
| nf_code (s : string) (a b : ascii) (canon rest rest' : string) :
    has_brace s = false ->
    isword a = true -> isword b = true ->
    dict_get AHOY_TO_PETCAT (upper (code a b)) = Ok canon ->
    normal_form rest rest' ->
    normal_form (s +++ code a b +++ rest) (s +++ canon +++ rest').

(** Every brace of the text belongs to a mnemonic of the petcat table:
    the text is brace-free text interleaved with such mnemonics. *)
Inductive canonical_text : string -> Prop :=
| ct_text (s : string) :
    has_brace s = false -> canonical_text s
| ct_code (s canon : string) (v : Z) (rest : string) :
    has_brace s = false ->
    In (canon, v) PETCAT_TOKENS ->
    canonical_text rest ->
    canonical_text (s +++ canon +++ rest).

(** A source in which a placeholder missing from the ahoy table comes
    before a line with a stray brace. *)
Definition unknown_then_loose : list string := ["10 {zz}"; "20 {"].

Definition unknown_then_loose_run : run :=
  main fresh_interpreter
       (Args (Ok 2049) "2" "ahoy" (Some unknown_then_loose)) fresh_disk.

(** A source whose second line has a stray brace. *)
Definition loose_args : args :=
  Args (Ok 2049) "2" "ahoy" (Some ["10 print {sc}"; "20 print {chr$(5)"]).

(** No token of the table holds a brace. *)
Definition brace_free (tbl : table) : bool :=
  forallb (fun e => negb (has_brace (fst e))) tbl.

(** Every token of the table begins with an opening brace. *)
Definition brace_led (tbl : table) : bool :=
  forallb (fun e => startswith (fst e) "{") tbl.

(** The state [st] with its bytes forgotten, and with [bs] put before
    its bytes. *)
Definition restart (st : lexer) : lexer :=
  Lexer (in_quotes st) (in_remark st) [].

Definition resume (bs : list Z) (st : lexer) : lexer :=
  Lexer (in_quotes st) (in_remark st) (bs ++ bytes st).

(** * Further vocabulary *)

(** The bytes of a text taken literally, character by character. *)
Fixpoint folded (s : string) : list Z :=
  match s with
  | EmptyString => []
  | String c s' => folded_char c :: folded s'
  end.

(** A byte that fits one octet and is no lower-case ASCII letter. *)
Definition petscii_byte (b : Z) : bool :=
  in_range 0 255 b && negb (in_range 97 122 b).

(** Every value of the table is such a byte. *)
Definition petscii_values (tbl : table) : bool :=
  forallb (fun e => petscii_byte (snd e)) tbl.

(** No token of the table comes after a proper prefix of itself. *)
Fixpoint unshadowed (tbl : table) : bool :=
  match tbl with
  | [] => true
  | (token, _) :: tbl' =>
      forallb (fun e => negb (startswith (fst e) token)
                        || (String.length (fst e) <=? String.length token)%nat)
              tbl'
      && unshadowed tbl'
  end.

(** The loop state after the bytes [bs] were appended one by one. *)
Definition record_all (st : lexer) (bs : list Z) : lexer :=
  fold_left record_byte bs st.

(** An ahoy source that holds nothing but blank lines. *)
Definition blank_ahoy_args : args :=
  Args (Ok 2049) "2" "ahoy" (Some [" "; EmptyString]).

(** One program line, parsed: its line number and its tokenized bytes. *)
Definition parse_line (TOKENS : option table) (line : string)
  : result (Z * list Z) :=
  '(line_num, line_txt) <- split_line_num line ;;
  byte_list <- scan_manager TOKENS line_txt ;;
  Ok (line_num, byte_list).

(** The frame of one line: link, line number, tokenized bytes. *)
Definition frame (link line_num : Z) (byte_list : list Z) : list Z :=
  le_bytes 2 link ++ le_bytes 2 line_num ++ byte_list.

(** The frames of parsed lines laid out from address [addr] on. *)
Fixpoint frames (addr : Z) (parsed : list (Z * list Z)) : list Z :=
  match parsed with
  | [] => []
  | (line_num, byte_list) :: parsed' =>
      let next := addr + Z.of_nat (List.length byte_list) + 4 in
      frame next line_num byte_list ++ frames next parsed'
  end.

(** The program image: the load address, the frames, the end marker;
    for no line at all, the end marker alone. *)
Definition image (load : Z) (parsed : list (Z * list Z)) : list Z :=
  match parsed with
  | [] => [0; 0]
  | _ => le_bytes 2 load ++ frames load parsed ++ [0; 0]
  end.

(** The program fits the 16-bit fields: the load address is not
    negative, the address behind the last frame is at most 65535, and so
    is every line number. *)
Definition fits (load : Z) (parsed : list (Z * list Z)) : Prop :=
  parsed = []
  \/ (0 <= load
      /\ load + Z.of_nat (frames_size (map snd parsed)) <= 65535
      /\ Forall (fun p => 0 <= fst p <= 65535) parsed).

(** The same, line by line, for the lines behind address [addr]. *)
Fixpoint fits_from (load addr : Z) (parsed : list (Z * list Z)) : Prop :=
  match parsed with
  | [] => True
  | (line_num, byte_list) :: parsed' =>
      let next := addr + Z.of_nat (List.length byte_list) + 4 in
      (addr = load -> 0 <= load)
      /\ 0 <= next <= 65535
      /\ 0 <= line_num <= 65535
      /\ fits_from load next parsed'
  end.

(** The header the loop of [main] puts before the first frame. *)
Definition header_of (load addr : Z) (parsed : list (Z * list Z)) : list Z :=
  if addr =? load
  then match parsed with [] => [] | _ => le_bytes 2 load end
  else [].

(** The keyword table, when bound, has values of one octet only. *)
Definition values_ok (TOKENS : option table) : Prop :=
  match TOKENS with
  | Some tokens => petscii_values tokens = true
  | None => True
  end.

(** A program long enough to get past [out_list[561]]: version 2, pet
    format, 113 lines [10 end]. *)
Definition long_args : args :=
  Args (Ok 2049) "2" "pet" (Some (repeat "10 end" 113)).

(** The image of the program of [long_args]. *)
Definition long_image : list Z := image 2049 (repeat (10, [128; 0]) 113).

(** The text holds whitespace only. *)
Fixpoint blank (s : string) : bool :=
  match s with
  | EmptyString => true
  | String c s' => isspace c && blank s'
  end.

(** Does the text begin with a character [str.isdigit] accepts? *)
Definition starts_with_digit (s : string) : bool :=
  match s with
  | EmptyString => false
  | String c _ => isdigit c
  end.

(** The character of a decimal digit, the text of a list of digits and
    the number the digits denote in base ten. *)
Definition digit_char (d : Z) : ascii := chr (48 + d).

Fixpoint digit_string (ds : list Z) : string :=
  match ds with
  | [] => EmptyString
  | d :: ds' => String (digit_char d) (digit_string ds')
  end.

Definition base10 (ds : list Z) : Z :=
  fold_left (fun acc d => 10 * acc + d) ds 0.

(** A pet source whose second line has no line number. *)
Definition unnumbered_args : args :=
  Args (Ok 2049) "2" "pet" (Some ["10 print 1"; "print 2"]).

(** * Properties *)

(** ** Strings *)

Section Strings.

Lemma append_nil_r (s : string) : s +++ EmptyString = s.
Proof. induction s as [|c s IH]; simpl; [reflexivity | now rewrite IH]. Qed.

Lemma append_assoc (s t u : string) : (s +++ t) +++ u = s +++ t +++ u.
Proof. induction s as [|c s IH]; simpl; [reflexivity | now rewrite IH]. Qed.

Lemma length_append (s t : string) :
  String.length (s +++ t) = (String.length s + String.length t)%nat.
Proof. induction s as [|c s IH]; simpl; [reflexivity | now rewrite IH]. Qed.

Lemma drop_append (s t : string) : drop (String.length s) (s +++ t) = t.
Proof. induction s as [|c s IH]; simpl; [now destruct t | exact IH]. Qed.

Lemma startswith_append (token rest : string) :
  startswith (token +++ rest) token = true.
Proof.
  induction token as [|c t IH]; simpl; [reflexivity|].
  now rewrite Ascii.eqb_refl.
Qed.

Lemma startswith_inv (ln token : string) :
  startswith ln token = true ->
  ln = token +++ drop (String.length token) ln.
Proof.
  revert ln. induction token as [|c t IH]; intros ln H; simpl.
  - now destruct ln.
  - destruct ln as [|d ln]; simpl in H; [discriminate|].
    apply andb_true_iff in H as [Hc H]. apply Ascii.eqb_eq in Hc. subst d.
    simpl. f_equal. now apply IH.
Qed.

Lemma has_brace_append (s t : string) :
  has_brace (s +++ t) = has_brace s || has_brace t.
Proof.
  induction s as [|c s IH]; simpl; [reflexivity|].
  rewrite IH. now rewrite !orb_assoc.
Qed.

End Strings.

(** ** Table look-up *)

Section Tables.

Lemma first_match_In (tbl : table) (ln : string) (v : Z) (rest : string) :
  first_match tbl ln = Some (v, rest) ->
  exists token, In (token, v) tbl /\ ln = token +++ rest.
Proof.
  induction tbl as [|[token value] tbl IH]; simpl; [discriminate|].
  destruct (startswith ln token) eqn:E.
  - intros [= <- <-]. exists token. split; [now left|].
    now apply startswith_inv.
  - intros H. destruct (IH H) as (t & Hin & Heq). exists t. auto.
Qed.

Lemma first_match_None (tbl : table) (ln : string) :
  first_match tbl ln = None <->
  Forall (fun e => startswith ln (fst e) = false) tbl.
Proof.
  induction tbl as [|[token value] tbl IH]; simpl.
  - split; [constructor | reflexivity].
  - destruct (startswith ln token) eqn:E.
    + split; [discriminate|]. intros H. inversion H; simpl in *. congruence.
    + rewrite IH. split.
      * intros H. now constructor.
      * intros H. now inversion H.
Qed.

Lemma first_match_shorter (tbl : table) (ln : string) (v : Z) (rest : string) :
  nonempty_tokens tbl ->
  first_match tbl ln = Some (v, rest) ->
  (String.length rest < String.length ln)%nat.
Proof.
  intros Hne H. destruct (first_match_In _ _ _ _ H) as (t & Hin & ->).
  unfold nonempty_tokens in Hne. rewrite Forall_forall in Hne.
  specialize (Hne _ Hin). simpl in Hne.
  rewrite length_append. destruct t; [congruence | simpl; lia].
Qed.

Lemma PETCAT_nonempty : nonempty_tokens PETCAT_TOKENS.
Proof. unfold nonempty_tokens, PETCAT_TOKENS. repeat constructor; discriminate. Qed.

Lemma CORE_nonempty : nonempty_tokens CORE_TOKENS.
Proof. unfold nonempty_tokens, CORE_TOKENS. repeat constructor; discriminate. Qed.

End Tables.

(** ** The scanner consumes its input *)

Section Scanner.

Variable TOKENS : option table.
Hypothesis TOKENS_ok : tokens_ok TOKENS.

Lemma scan_char_shorter (ln : string) (v : Z) (rest : string) :
  scan_char ln = Ok (v, rest) ->
  (String.length rest < String.length ln)%nat.
Proof.
  destruct ln as [|c ln]; simpl; [discriminate|].
  intros [= _ <-]. lia.
Qed.

Lemma scan_shorter (ln : string) (tokenize : bool) (v : Z) (rest : string) :
  scan TOKENS ln tokenize = Ok (v, rest) ->
  (String.length rest < String.length ln)%nat.
Proof.
  unfold scan.
  destruct (first_match PETCAT_TOKENS ln) as [[v' r']|] eqn:Ep.
  - intros [= <- <-]. eapply first_match_shorter; eauto using PETCAT_nonempty.
  - destruct tokenize; [|apply scan_char_shorter].
    destruct TOKENS as [tokens|]; [|discriminate].
    destruct (first_match tokens ln) as [[v' r']|] eqn:Et.
    + intros [= <- <-]. eapply first_match_shorter; eauto.
    + apply scan_char_shorter.
Qed.

Lemma scan_loop_fuel_eq (fuel1 : nat) :
  forall (fuel2 : nat) (ln : string) (st : lexer),
    (String.length ln <= fuel1)%nat ->
    (String.length ln <= fuel2)%nat ->
    scan_loop TOKENS fuel1 ln st = scan_loop TOKENS fuel2 ln st.
Proof.
  induction fuel1 as [|fuel1 IH]; intros fuel2 ln st H1 H2.
  - destruct ln; simpl in *; [now destruct fuel2 | lia].
  - destruct ln as [|c ln]; [now destruct fuel2|].
    destruct fuel2 as [|fuel2]; [simpl in H2; lia|].
    cbn [scan_loop].
    destruct (scan TOKENS (String c ln) _) as [[v rest]|e] eqn:Es;
      [|reflexivity].
    cbn [bind]. apply scan_shorter in Es. cbn [String.length] in *.
    apply IH; lia.
Qed.

Lemma scan_loop_fuel (fuel : nat) (ln : string) (st : lexer) :
  (String.length ln <= fuel)%nat ->
  scan_loop TOKENS fuel ln st = scan_from TOKENS ln st.
Proof. intros H. apply scan_loop_fuel_eq; [exact H | lia]. Qed.

Lemma scan_from_nil (st : lexer) : scan_from TOKENS EmptyString st = Ok st.
Proof. reflexivity. Qed.

Lemma scan_from_cons (c : ascii) (ln : string) (st : lexer) :
  scan_from TOKENS (String c ln) st =
  match scan TOKENS (String c ln) (tokenizing st) with
  | Ok (byte, ln') => scan_from TOKENS ln' (record_byte st byte)
  | Raise e => Raise e
  end.
Proof.
  unfold scan_from at 1. cbn [String.length scan_loop]. unfold tokenizing.
  destruct (scan TOKENS (String c ln) _) as [[v rest]|e] eqn:Es;
    [|reflexivity].
  cbn [bind]. apply scan_loop_fuel. apply scan_shorter in Es.
  cbn [String.length] in Es. lia.
Qed.

(** Induction along the run of the loop. *)
Lemma scan_from_ind (P : string -> lexer -> result lexer -> Prop) :
  (forall st, P EmptyString st (Ok st)) ->
  (forall c ln st e,
      scan TOKENS (String c ln) (tokenizing st) = Raise e ->
      P (String c ln) st (Raise e)) ->
  (forall c ln st byte ln',
      scan TOKENS (String c ln) (tokenizing st) = Ok (byte, ln') ->
      P ln' (record_byte st byte)
        (scan_from TOKENS ln' (record_byte st byte)) ->
      P (String c ln) st (scan_from TOKENS ln' (record_byte st byte))) ->
  forall ln st, P ln st (scan_from TOKENS ln st).
Proof.
  intros Hnil Herr Hstep ln.
  remember (String.length ln) as n eqn:Hn.
  revert ln Hn. induction n as [n IH] using lt_wf_ind. intros ln Hn st.
  destruct ln as [|c ln]; [apply Hnil|].
  rewrite scan_from_cons.
  destruct (scan TOKENS (String c ln) (tokenizing st)) as [[v rest]|e] eqn:Es.
  - apply Hstep; [exact Es|].
    eapply IH; [|reflexivity]. subst n. now apply scan_shorter in Es.
  - now apply Herr.
Qed.

(** The bound on the loop is never reached. *)
Lemma scan_from_fuel (ln : string) (st : lexer) :
  scan_from TOKENS ln st <> Raise FuelExhausted.
Proof.
  apply (scan_from_ind (fun _ _ r => r <> Raise FuelExhausted)).
  - discriminate.
  - intros c l s e Hs [= ->]. unfold scan in Hs.
    destruct (first_match PETCAT_TOKENS _) as [[? ?]|]; [discriminate|].
    destruct (tokenizing s); [|discriminate].
    destruct TOKENS as [t|]; [|discriminate].
    destruct (first_match t _) as [[? ?]|]; discriminate.
  - auto.
Qed.

End Scanner.

(** ** The worked example *)

(** C2, as stated, fails: the statement text of [10 print "hi"] does not
    lex to the six bytes 153, 34, 72, 73, 34, 0. *)
Lemma print_hi_not_six_bytes :
  line_bytes (configure_tokens fresh_interpreter "2") print_hi <> Ok [153; 34; 72; 73; 34; 0].
Proof. vm_compute. discriminate. Qed.

(** C2, amended: under the pet dialect and BASIC version 2, the statement
    text of the line [10 print "hi"] lexes to exactly the seven bytes
    153 (PRINT), 32 (the space after the keyword), 34, 72, 73, 34 and the
    terminator 0: the letters between the quotes are folded to upper case
    and the blank is kept as a literal byte. *)
Theorem print_hi_bytes :
  split_line_num print_hi = Ok (10, "print " +++ dquote +++ "hi" +++ dquote)
  /\ line_bytes (configure_tokens fresh_interpreter "2") print_hi
     = Ok [153; 32; 34; 72; 73; 34; 0].
Proof. split; reflexivity. Qed.

(** ** The line splitter *)

Lemma take_digits_no_digit (c : ascii) (s : string) :
  isdigit c = false -> take_digits (String c s) = (EmptyString, String c s).
Proof. intros H. simpl. now rewrite H. Qed.

Lemma int_of_digits_not_decimal (c : ascii) (s : string) :
  in_range 48 57 (ord c) = false ->
  int_of_digits (String c s) = Raise ValueError.
Proof.
  intros H. unfold int_of_digits.
  destruct (_ <? _)%nat; [reflexivity|].
  cbn [decimal]. now rewrite H.
Qed.

(** C3, as stated, fails: on the line [print] the splitter raises
    ValueError instead of returning line number 0. *)
Lemma split_line_num_print_fails :
  split_line_num "print" = Raise ValueError
  /\ split_line_num "print" <> Ok (0, "print").
Proof. split; [reflexivity | discriminate]. Qed.

(** C3, amended: for every line (of characters in U+0000..U+00FF) that,
    once its leading whitespace is stripped, begins with no ASCII digit,
    the line splitter fails: [int] of the digits collected raises
    ValueError, and no line number is returned. *)
Theorem split_line_num_no_digit (line : string) :
  starts_with_ascii_digit (lstrip line) = false ->
  split_line_num line = Raise ValueError.
Proof.
  unfold split_line_num. intros H.
  destruct (lstrip line) as [|c s]; [reflexivity|].
  cbn [starts_with_ascii_digit] in H.
  destruct (isdigit c) eqn:Ed.
  - cbn [take_digits]. rewrite Ed.
    destruct (take_digits s) as [acc rest].
    now rewrite int_of_digits_not_decimal.
  - now rewrite take_digits_no_digit.
Qed.

Lemma split_line_num_no_digit_witness :
  starts_with_ascii_digit (lstrip "print") = false
  /\ split_line_num "print" = Raise ValueError.
Proof.
  split; [reflexivity|].
  apply (split_line_num_no_digit "print"). reflexivity.
Defined.

(** ** Quotes *)

Section Quotes.

Lemma count_dq_append (s t : string) :
  count_dq (s +++ t) = (count_dq s + count_dq t)%nat.
Proof. induction s as [|c s IH]; simpl; [reflexivity | rewrite IH; lia]. Qed.

Lemma count_34_app (bs cs : list Z) :
  count_34 (bs ++ cs) = (count_34 bs + count_34 cs)%nat.
Proof. apply count_occ_app. Qed.

Lemma count_34_one (v : Z) :
  count_34 [v] = is_quote v.
Proof.
  unfold count_34, is_quote. simpl.
  destruct (Z.eq_dec v 34) as [->|n]; [reflexivity|].
  apply Z.eqb_neq in n. now rewrite n.
Qed.

Lemma quote_free_In (tbl : table) (token : string) (v : Z) :
  quote_free tbl = true -> In (token, v) tbl ->
  v <> 34 /\ count_dq token = 0%nat.
Proof.
  unfold quote_free. rewrite forallb_forall. intros H Hin.
  specialize (H _ Hin). simpl in H.
  apply andb_true_iff in H as [Hv Hc].
  apply negb_true_iff, Z.eqb_neq in Hv. apply Nat.eqb_eq in Hc. auto.
Qed.

Lemma PETCAT_quote_free : quote_free PETCAT_TOKENS = true.
Proof. reflexivity. Qed.

Lemma CORE_quote_free : quote_free CORE_TOKENS = true.
Proof. reflexivity. Qed.

(** A table match emits no double quote and skips none. *)
Lemma first_match_quotes (tbl : table) (ln : string) (v : Z) (rest : string) :
  quote_free tbl = true ->
  first_match tbl ln = Some (v, rest) ->
  v <> 34 /\ count_dq ln = count_dq rest.
Proof.
  intros Hq H. destruct (first_match_In _ _ _ _ H) as (t & Hin & ->).
  destruct (quote_free_In _ _ _ Hq Hin) as [Hv Hc].
  split; [exact Hv|]. rewrite count_dq_append, Hc. reflexivity.
Qed.

Lemma scan_char_quotes (ln : string) (v : Z) (rest : string) :
  scan_char ln = Ok (v, rest) ->
  count_dq ln = (is_quote v + count_dq rest)%nat.
Proof.
  destruct ln as [|c ln]; simpl; [discriminate|].
  intros [= <- <-]. unfold is_quote.
  destruct ((ord c >=? 97) && (ord c <=? 122)) eqn:E; [|reflexivity].
  apply andb_true_iff in E as [E1 E2].
  replace (ord c =? 34) with false by (symmetry; apply Z.eqb_neq; lia).
  replace (ord c - 32 =? 34) with false by (symmetry; apply Z.eqb_neq; lia).
  reflexivity.
Qed.

Lemma record_byte_not_34 (st : lexer) (v : Z) :
  v <> 34 -> in_quotes (record_byte st v) = in_quotes st.
Proof. intros H. unfold record_byte. simpl. apply Z.eqb_neq in H. now rewrite H. Qed.

Variable tokens : table.
Hypothesis tokens_nonempty : nonempty_tokens tokens.
Hypothesis tokens_quote_free : quote_free tokens = true.

Lemma scan_quotes (ln : string) (tokenize : bool) (v : Z) (rest : string) :
  scan (Some tokens) ln tokenize = Ok (v, rest) ->
  count_dq ln = (is_quote v + count_dq rest)%nat.
Proof.
  unfold scan.
  assert (Htbl : forall tbl r, quote_free tbl = true ->
            first_match tbl ln = Some r -> Ok r = Ok (v, rest) ->
            count_dq ln = (is_quote v + count_dq rest)%nat).
  { intros tbl [v' r'] Hq Hm [= -> ->].
    destruct (first_match_quotes _ _ _ _ Hq Hm) as [Hv ->].
    unfold is_quote. apply Z.eqb_neq in Hv. now rewrite Hv. }
  destruct (first_match PETCAT_TOKENS ln) as [r|] eqn:Ep.
  - now apply (Htbl PETCAT_TOKENS r).
  - destruct tokenize; [|apply scan_char_quotes].
    destruct (first_match tokens ln) as [r|] eqn:Et.
    + now apply (Htbl tokens r).
    + apply scan_char_quotes.
Qed.

(** With a bound table the scanner accepts every non-empty text. *)
Lemma scan_total (c : ascii) (ln : string) (tokenize : bool) :
  exists v rest, scan (Some tokens) (String c ln) tokenize = Ok (v, rest).
Proof.
  unfold scan.
  destruct (first_match PETCAT_TOKENS _) as [[v r]|]; [eauto|].
  destruct tokenize; [|simpl; eauto].
  destruct (first_match tokens _) as [[v r]|]; [eauto | simpl; eauto].
Qed.

Lemma scan_from_total (ln : string) (st : lexer) :
  exists st', scan_from (Some tokens) ln st = Ok st'.
Proof.
  apply (scan_from_ind (Some tokens) tokens_nonempty
           (fun _ _ r => exists st', r = Ok st')).
  - eauto.
  - intros c l s e Hs. destruct (scan_total c l (tokenizing s)) as (v & r & H).
    congruence.
  - auto.
Qed.

(** The loop invariant: the bytes appended hold as many double quotes as
    the text consumed, and the flag has been toggled once for each. *)
Lemma scan_from_quotes (ln : string) (st st' : lexer) :
  scan_from (Some tokens) ln st = Ok st' ->
  exists bs,
    bytes st' = bytes st ++ bs
    /\ count_34 bs = count_dq ln
    /\ in_quotes st' = xorb (in_quotes st) (Nat.odd (count_dq ln)).
Proof.
  revert st'.
  apply (scan_from_ind (Some tokens) tokens_nonempty
           (fun ln st r => forall st', r = Ok st' ->
              exists bs, bytes st' = bytes st ++ bs
                /\ count_34 bs = count_dq ln
                /\ in_quotes st' = xorb (in_quotes st) (Nat.odd (count_dq ln)))).
  - intros s st' [= <-]. exists []. rewrite app_nil_r.
    simpl. now rewrite xorb_false_r.
  - discriminate.
  - intros c l s byte l' Hs IH st' Hr.
    destruct (IH _ Hr) as (bs & Hb & Hc & Hq).
    exists (byte :: bs). apply scan_quotes in Hs. rewrite Hs.
    split; [|split].
    + rewrite Hb. simpl. now rewrite <- app_assoc.
    + change (byte :: bs) with ([byte] ++ bs).
      rewrite count_34_app, count_34_one, Hc. reflexivity.
    + rewrite Hq. unfold is_quote. simpl.
      destruct (byte =? 34).
      * change (1 + count_dq l')%nat with (S (count_dq l')).
        rewrite Nat.odd_succ, <- Nat.negb_odd.
        now destruct (in_quotes s), (Nat.odd (count_dq l')).
      * reflexivity.
Qed.

End Quotes.

(** C8: for every statement text, lexed with the version 2 table, the
    loop of [scan_manager] ends (and [scan_manager] returns the bytes it
    collected, then 0) with the quote flag clear when the number of
    double-quote bytes emitted is even and set when it is odd; that
    number is the number of double quotes of the text; and recording the
    byte of a mnemonic or keyword match never changes the flag. *)
Theorem quote_toggle (txt : string) :
  exists st,
    scan_state (Some CORE_TOKENS) txt = Ok st
    /\ scan_manager (Some CORE_TOKENS) txt = Ok (bytes st ++ [0])
    /\ in_quotes st = Nat.odd (count_34 (bytes st))
    /\ count_34 (bytes st) = count_dq txt
    /\ (forall s ln v rest,
           first_match PETCAT_TOKENS ln = Some (v, rest)
           \/ first_match CORE_TOKENS ln = Some (v, rest) ->
           in_quotes (record_byte s v) = in_quotes s).
Proof.
  destruct (scan_from_total CORE_TOKENS CORE_nonempty txt
              (Lexer false false [])) as [st Hst].
  exists st. split; [exact Hst|]. split.
  { unfold scan_manager. fold (scan_from (Some CORE_TOKENS) txt (Lexer false false [])).
    unfold scan_state. fold (scan_from (Some CORE_TOKENS) txt (Lexer false false [])).
    now rewrite Hst. }
  destruct (scan_from_quotes CORE_TOKENS CORE_nonempty CORE_quote_free _ _ _ Hst)
    as (bs & Hb & Hc & Hq).
  simpl in Hb, Hq. subst bs. rewrite Hc. repeat split; [exact Hq|].
  intros s ln v rest [H|H]; apply record_byte_not_34.
  - now apply (first_match_quotes _ _ _ _ PETCAT_quote_free H).
  - now apply (first_match_quotes _ _ _ _ CORE_quote_free H).
Qed.

(** ** Remarks *)

(** A mnemonic at the head of a text is what the table look-up finds: no
    mnemonic is the beginning of another. *)
Lemma petcat_first_match (token : string) (v : Z) (rest : string) :
  In (token, v) PETCAT_TOKENS ->
  first_match PETCAT_TOKENS (token +++ rest) = Some (v, rest).
Proof.
  unfold PETCAT_TOKENS. intros Hin.
  repeat (destruct Hin as [[= <- <-]|Hin]; [reflexivity|]).
  contradiction.
Qed.

Lemma no_mnemonic_begins (ln : string) :
  first_match PETCAT_TOKENS ln = None -> ~ mnemonic_begins ln.
Proof.
  intros Hn (token & v & rest & Hin & ->).
  rewrite (petcat_first_match _ _ rest Hin) in Hn. discriminate.
Qed.

Section Trace.

Variable TOKENS : option table.
Hypothesis TOKENS_ok : tokens_ok TOKENS.

Lemma trace_loop_fuel_eq (fuel1 : nat) :
  forall (fuel2 : nat) (ln : string) (st : lexer),
    (String.length ln <= fuel1)%nat ->
    (String.length ln <= fuel2)%nat ->
    trace_loop TOKENS fuel1 ln st = trace_loop TOKENS fuel2 ln st.
Proof.
  induction fuel1 as [|fuel1 IH]; intros fuel2 ln st H1 H2.
  - destruct ln; simpl in *; [now destruct fuel2 | lia].
  - destruct ln as [|c ln]; [now destruct fuel2|].
    destruct fuel2 as [|fuel2]; [simpl in H2; lia|].
    cbn [trace_loop].
    destruct (scan TOKENS (String c ln) _) as [[v rest]|e] eqn:Es;
      [|reflexivity].
    cbn [bind]. apply (scan_shorter _ TOKENS_ok) in Es.
    cbn [String.length] in *.
    rewrite (IH fuel2 rest) by lia. reflexivity.
Qed.

Lemma trace_from_cons (c : ascii) (ln : string) (st : lexer) :
  trace_from TOKENS (String c ln) st =
  match scan TOKENS (String c ln) (tokenizing st) with
  | Ok (b, ln') =>
      events <- trace_from TOKENS ln' (record_byte st b) ;;
      Ok (Event (String c ln)
                (scan_origin TOKENS (String c ln) (tokenizing st)) b ln'
          :: events)
  | Raise e => Raise e
  end.
Proof.
  unfold trace_from at 1. cbn [String.length trace_loop].
  destruct (scan TOKENS (String c ln) _) as [[v rest]|e] eqn:Es;
    [|reflexivity].
  cbn [bind]. unfold trace_from.
  apply (scan_shorter _ TOKENS_ok) in Es. cbn [String.length] in Es.
  rewrite (trace_loop_fuel_eq _ (String.length rest)) by lia.
  reflexivity.
Qed.

(** Induction along the recorded run. *)
Lemma trace_from_ind (P : string -> lexer -> result (list event) -> Prop) :
  (forall st, P EmptyString st (Ok [])) ->
  (forall c ln st e,
      scan TOKENS (String c ln) (tokenizing st) = Raise e ->
      P (String c ln) st (Raise e)) ->
  (forall c ln st b ln',
      scan TOKENS (String c ln) (tokenizing st) = Ok (b, ln') ->
      P ln' (record_byte st b) (trace_from TOKENS ln' (record_byte st b)) ->
      P (String c ln) st
        (events <- trace_from TOKENS ln' (record_byte st b) ;;
         Ok (Event (String c ln)
                   (scan_origin TOKENS (String c ln) (tokenizing st)) b ln'
             :: events))) ->
  forall ln st, P ln st (trace_from TOKENS ln st).
Proof.
  intros Hnil Herr Hstep ln.
  remember (String.length ln) as n eqn:Hn.
  revert ln Hn. induction n as [n IH] using lt_wf_ind. intros ln Hn st.
  destruct ln as [|c ln]; [apply Hnil|].
  rewrite trace_from_cons.
  destruct (scan TOKENS (String c ln) (tokenizing st)) as [[v rest]|e] eqn:Es.
  - apply Hstep; [exact Es|].
    eapply IH; [|reflexivity]. subst n.
    now apply (scan_shorter _ TOKENS_ok) in Es.
  - now apply Herr.
Qed.

(** The recorded run is the run: same outcome, same bytes. *)
Lemma trace_from_scan_from (ln : string) (st : lexer) :
  match trace_from TOKENS ln st with
  | Ok events =>
      exists st', scan_from TOKENS ln st = Ok st'
                  /\ bytes st' = bytes st ++ map byte events
  | Raise e => scan_from TOKENS ln st = Raise e
  end.
Proof.
  apply (trace_from_ind (fun ln st r =>
    match r with
    | Ok events =>
        exists st', scan_from TOKENS ln st = Ok st'
                    /\ bytes st' = bytes st ++ map byte events
    | Raise e => scan_from TOKENS ln st = Raise e
    end)).
  - intros s. exists s. simpl. now rewrite app_nil_r.
  - intros c l s e Hs. rewrite (scan_from_cons _ TOKENS_ok). now rewrite Hs.
  - intros c l s b l' Hs IH.
    rewrite (scan_from_cons _ TOKENS_ok), Hs.
    destruct (trace_from TOKENS l' (record_byte s b)) as [events|e];
      cbn [bind]; [|exact IH].
    destruct IH as (st' & H1 & H2). exists st'. split; [exact H1|].
    rewrite H2. simpl. now rewrite <- app_assoc.
Qed.

(** The recorded iterations follow one another through the text. *)
Lemma trace_chained (ln : string) (st : lexer) (events : list event) :
  trace_from TOKENS ln st = Ok events -> chained ln events.
Proof.
  revert events.
  apply (trace_from_ind (fun ln st r => forall events,
           r = Ok events -> chained ln events)).
  - intros s events [= <-]. reflexivity.
  - discriminate.
  - intros c l s b l' Hs IH events Hr.
    destruct (trace_from TOKENS l' (record_byte s b)) as [evs|e];
      cbn [bind] in Hr; [|discriminate].
    injection Hr as <-. cbn [chained at_text rest_text].
    split; [reflexivity | now apply IH].
Qed.

(** Inside a remark no byte comes from the keyword table. *)
Lemma trace_in_remark (ln : string) (st : lexer) (events : list event) :
  in_remark st = true ->
  trace_from TOKENS ln st = Ok events ->
  Forall (fun e => from e <> Keyword) events.
Proof.
  revert events.
  apply (trace_from_ind (fun ln st r => forall events,
           in_remark st = true -> r = Ok events ->
           Forall (fun e => from e <> Keyword) events)).
  - intros s events _ [= <-]. constructor.
  - discriminate.
  - intros c l s b l' Hs IH events Hrem Hr.
    destruct (trace_from TOKENS l' (record_byte s b)) as [evs|e];
      cbn [bind] in Hr; [|discriminate].
    injection Hr as <-. constructor.
    + cbn [from]. unfold scan_origin, tokenizing. rewrite Hrem, orb_true_r.
      cbn [negb]. now destruct (first_match PETCAT_TOKENS _).
    + apply IH; [|reflexivity].
      unfold record_byte. cbn [in_remark]. rewrite Hrem. now destruct (b =? 143).
Qed.

(** Once byte 143 is appended, no later byte comes from the keyword
    table. *)
Lemma trace_after_rem (ln : string) (st : lexer) (events : list event) :
  trace_from TOKENS ln st = Ok events ->
  forall before e after,
    events = before ++ e :: after -> byte e = 143 ->
    Forall (fun e' => from e' <> Keyword) after.
Proof.
  revert events.
  apply (trace_from_ind (fun ln st r => forall events, r = Ok events ->
           forall before e after,
             events = before ++ e :: after -> byte e = 143 ->
             Forall (fun e' => from e' <> Keyword) after)).
  - intros s events [= <-] before e after H. now destruct before.
  - discriminate.
  - intros c l s b l' Hs IH events Hr before e after Heq H143.
    destruct (trace_from TOKENS l' (record_byte s b)) as [evs|x] eqn:Et;
      cbn [bind] in Hr; [|discriminate].
    injection Hr as <-.
    destruct before as [|e0 before]; simpl in Heq.
    + injection Heq as <- <-. cbn [byte] in H143. subst b.
      apply (trace_in_remark l' (record_byte s 143)); [reflexivity | exact Et].
    + injection Heq as _ ->. eapply IH; eauto.
Qed.

(** Mnemonic matching is in force at every iteration. *)
Lemma trace_mnemonic_active (ln : string) (st : lexer) (events : list event) :
  trace_from TOKENS ln st = Ok events ->
  Forall mnemonic_active events.
Proof.
  revert events.
  apply (trace_from_ind (fun ln st r => forall events, r = Ok events ->
           Forall mnemonic_active events)).
  - intros s events [= <-]. constructor.
  - discriminate.
  - intros c l s b l' Hs IH events Hr.
    destruct (trace_from TOKENS l' (record_byte s b)) as [evs|x];
      cbn [bind] in Hr; [|discriminate].
    injection Hr as <-. constructor; [|now apply IH].
    intros token v rest Hin Heq. cbn [at_text from byte rest_text] in *.
    pose proof (petcat_first_match token v rest Hin) as Hm.
    rewrite <- Heq in Hm.
    unfold scan_origin. unfold scan in Hs. rewrite Hm in *.
    injection Hs as -> ->. auto.
Qed.

End Trace.

Section TraceBound.

Variable tokens : table.
Hypothesis tokens_nonempty : nonempty_tokens tokens.

Lemma trace_from_total (ln : string) (st : lexer) :
  exists events, trace_from (Some tokens) ln st = Ok events.
Proof.
  apply (trace_from_ind (Some tokens) tokens_nonempty
           (fun _ _ r => exists events, r = Ok events)).
  - eauto.
  - intros c l s e Hs.
    destruct (scan_total tokens c l (tokenizing s)) as (v & r & H).
    congruence.
  - intros c l s b l' _ [events ->]. cbn [bind]. eauto.
Qed.

(** Each recorded event is what its origin says, in terms of the tables
    and the text. *)
Lemma trace_explained (ln : string) (st : lexer) (events : list event) :
  trace_from (Some tokens) ln st = Ok events ->
  Forall (explained tokens) events.
Proof.
  revert events.
  apply (trace_from_ind (Some tokens) tokens_nonempty
           (fun ln st r => forall events, r = Ok events ->
              Forall (explained tokens) events)).
  - intros s events [= <-]. constructor.
  - discriminate.
  - intros c l s b l' Hs IH events Hr.
    destruct (trace_from (Some tokens) l' (record_byte s b)) as [evs|x];
      cbn [bind] in Hr; [|discriminate].
    injection Hr as <-. constructor; [|now apply IH].
    unfold explained. cbn [at_text from byte rest_text].
    unfold scan_origin. unfold scan in Hs.
    destruct (first_match PETCAT_TOKENS (String c l)) as [[v r]|] eqn:Ep.
    { injection Hs as -> ->.
      destruct (first_match_In _ _ _ _ Ep) as (token & Hin & Heq). eauto. }
    pose proof (no_mnemonic_begins _ Ep) as Hno.
    assert (Hlit : scan_char (String c l) = Ok (b, l') ->
                   (exists c0, String c l = String c0 l' /\ b = folded_char c0)
                   /\ ~ mnemonic_begins (String c l)).
    { intros [= <- <-]. split; [eauto | exact Hno]. }
    destruct (tokenizing s); [|now apply Hlit].
    destruct (first_match tokens (String c l)) as [[v r]|] eqn:Et;
      [|now apply Hlit].
    injection Hs as -> ->.
    destruct (first_match_In _ _ _ _ Et) as (token & Hin & Heq).
    split; [eauto | exact Hno].
Qed.

End TraceBound.

(** A text that begins with [rem] begins, with the version 2 table,
    with the iteration that consumes the keyword and appends 143. *)
Lemma trace_rem (s : string) (events : list event) :
  scan_trace (Some CORE_TOKENS) ("rem" +++ s) = Ok events ->
  exists after, events = Event ("rem" +++ s) Keyword 143 s :: after.
Proof.
  unfold scan_trace. cbn [String.append].
  rewrite (trace_from_cons (Some CORE_TOKENS) CORE_nonempty).
  change (scan (Some CORE_TOKENS) (String "r" (String "e" (String "m" s)))
            (tokenizing (Lexer false false [])))
    with (Ok (A := Z * string) (143, s)).
  cbv beta iota.
  destruct (trace_from (Some CORE_TOKENS) s _) as [after|e];
    cbn [bind]; [|discriminate].
  intros [= <-]. exists after. reflexivity.
Qed.

(** C9: for every statement text, lexed with the version 2 table, the
    loop of [scan_manager] runs to the end, and in the sequence of its
    iterations, which follow one another through the text: every
    iteration is what its origin says (it consumes a mnemonic of the
    petcat table, or a token of the keyword table, or one literal
    character, and appends the value of the table or the folded
    character; the last two only where no mnemonic begins the text); at
    every iteration a mnemonic of the petcat table that begins the text is
    consumed and its value appended; a text that begins with [rem] begins
    with the keyword iteration that appends 143; and after an iteration
    that appended byte 143, the code of REM, no later byte comes from the
    keyword table, while mnemonics are still matched. *)
Theorem remark_suppression (txt : string) :
  exists events,
    scan_trace (Some CORE_TOKENS) txt = Ok events
    /\ scan_manager (Some CORE_TOKENS) txt = Ok (map byte events ++ [0])
    /\ chained txt events
    /\ Forall (explained CORE_TOKENS) events
    /\ Forall mnemonic_active events
    /\ (forall s, txt = "rem" +++ s ->
        exists after, events = Event txt Keyword 143 s :: after)
    /\ (forall before e after,
           events = before ++ e :: after -> byte e = 143 ->
           Forall (fun e' => from e' <> Keyword) after
           /\ Forall mnemonic_active after).
Proof.
  destruct (trace_from_total CORE_TOKENS CORE_nonempty txt
              (Lexer false false [])) as [events Ht].
  assert (Hact : Forall mnemonic_active events)
    by exact (trace_mnemonic_active (Some CORE_TOKENS) CORE_nonempty _ _ _ Ht).
  exists events. split; [exact Ht|].
  split; [|split; [|split; [|split; [|split]]]].
  - pose proof (trace_from_scan_from (Some CORE_TOKENS) CORE_nonempty txt
                  (Lexer false false [])) as H.
    rewrite Ht in H. destruct H as (st' & Hs & Hb).
    unfold scan_manager, scan_state.
    fold (scan_from (Some CORE_TOKENS) txt (Lexer false false [])).
    rewrite Hs. cbn [bind]. rewrite Hb. reflexivity.
  - exact (trace_chained (Some CORE_TOKENS) CORE_nonempty _ _ _ Ht).
  - exact (trace_explained CORE_TOKENS CORE_nonempty _ _ _ Ht).
  - exact Hact.
  - intros s ->. now apply trace_rem.
  - intros before e after Heq H143. split.
    + exact (trace_after_rem (Some CORE_TOKENS) CORE_nonempty _ _ _ Ht
               _ _ _ Heq H143).
    + subst events. apply Forall_app in Hact as [_ Hact].
      now inversion Hact.
Qed.

Lemma remark_suppression_witness :
  exists events,
    scan_trace (Some CORE_TOKENS) rem_print_clr = Ok events
    /\ scan_manager (Some CORE_TOKENS) rem_print_clr
       = Ok (map byte events ++ [0])
    /\ chained rem_print_clr events
    /\ Forall (explained CORE_TOKENS) events
    /\ Forall mnemonic_active events
    /\ (forall s, rem_print_clr = "rem" +++ s ->
        exists after, events = Event rem_print_clr Keyword 143 s :: after)
    /\ (forall before e after,
           events = before ++ e :: after -> byte e = 143 ->
           Forall (fun e' => from e' <> Keyword) after
           /\ Forall mnemonic_active after).
Proof. apply (remark_suppression rem_print_clr). Defined.

Example rem_print_clr_trace :
  scan_trace (Some CORE_TOKENS) rem_print_clr =
  Ok [ Event "rem print{clr}" Keyword 143 " print{clr}";
       Event " print{clr}" Literal 32 "print{clr}";
       Event "print{clr}" Literal 80 "rint{clr}";
       Event "rint{clr}" Literal 82 "int{clr}";
       Event "int{clr}" Literal 73 "nt{clr}";
       Event "nt{clr}" Literal 78 "t{clr}";
       Event "t{clr}" Literal 84 "{clr}";
       Event "{clr}" Mnemonic 147 EmptyString ].
Proof. reflexivity. Qed.

Example rem_keeps_mnemonics :
  scan_manager (Some CORE_TOKENS) "rem print{clr}" =
  Ok [143; 32; 80; 82; 73; 78; 84; 147; 0].
Proof. reflexivity. Qed.

(** ** The address chain *)

(** Inversion of a successful [bind]. *)
Ltac bind_ok H :=
  match type of H with
  | bind ?e _ = Ok _ =>
      let E := fresh "E" in
      destruct e eqn:E; cbn [bind] in H; [|discriminate H]
  end.

Section AddressChain.

Lemma to_bytes_2_ok (n : Z) (bs : list Z) :
  to_bytes n 2 = Ok bs ->
  0 <= n <= 65535 /\ bs = [n mod 256; n / 256 mod 256].
Proof.
  unfold to_bytes. change (256 ^ Z.of_nat 2) with 65536.
  destruct (n <? 0) eqn:E1; [discriminate|].
  destruct (65536 <=? n) eqn:E2; [discriminate|].
  cbn [orb le_bytes]. intros [= <-]. split; [lia | reflexivity].
Qed.

Lemma field16_le (n : Z) (tail : list Z) :
  0 <= n <= 65535 ->
  field16 ([n mod 256; n / 256 mod 256] ++ tail) 0 = Some n.
Proof.
  intros H. unfold field16. cbn [nth_error app]. f_equal.
  rewrite (Z.mod_small (n / 256)).
  - pose proof (Z.div_mod n 256 ltac:(lia)). lia.
  - split; [apply Z.div_pos; lia | apply Z.div_lt_upper_bound; lia].
Qed.

Lemma field16_skip (pre out : list Z) (off : nat) :
  field16 (pre ++ out) (List.length pre + off) = field16 out off.
Proof.
  unfold field16.
  replace (S (List.length pre + off)) with (List.length pre + S off)%nat by lia.
  rewrite !nth_error_app2 by lia.
  replace (List.length pre + off - List.length pre)%nat with off by lia.
  replace (List.length pre + S off - List.length pre)%nat with (S off) by lia.
  reflexivity.
Qed.

Variable TOKENS : option table.
Variable load : Z.

(** What the loop of [main] appends, line by line: behind the load
    address on the first line, each line's link is the running address,
    advanced by 4 and the length of the line's bytes. *)
Lemma assemble_lines_fields (lines_list : list string) :
  forall (addr : Z) (out_list : list (list Z)),
    load <= addr ->
    assemble_lines TOKENS load addr lines_list = Ok out_list ->
    exists toks,
      Forall2 (fun line byte_list => line_bytes TOKENS line = Ok byte_list)
              lines_list toks
      /\ forall (i : nat) (tail : list Z),
           (i < List.length lines_list)%nat ->
           let header := if addr =? load then 2%nat else 0%nat in
           let next := addr + Z.of_nat (frames_size (firstn (S i) toks)) in
           0 <= next <= 65535
           /\ field16 (List.concat out_list ++ tail)
                      (header + frames_size (firstn i toks)) = Some next
           /\ (addr = load -> field16 (List.concat out_list ++ tail) 0
                              = Some load).
Proof.
  induction lines_list as [|line rest IH]; intros addr out_list Hle H.
  - exists []. split; [constructor|]. intros i tail Hi. simpl in Hi. lia.
  - cbn [assemble_lines] in H.
    bind_ok H. destruct a as [line_num line_txt].
    bind_ok H. rename a into header.
    bind_ok H. rename a into byte_list.
    bind_ok H. rename a into link.
    bind_ok H. rename a into number.
    bind_ok H. rename a into out_list'.
    injection H as <-.
    set (addr' := addr + Z.of_nat (List.length byte_list) + 4) in *.
    apply to_bytes_2_ok in E2 as [Hlink ->].
    apply to_bytes_2_ok in E3 as [Hnum ->].
    assert (Hlt : load < addr') by (unfold addr'; lia).
    destruct (IH addr' out_list' (Z.lt_le_incl _ _ Hlt) E4) as (toks & HF & Hi).
    exists (byte_list :: toks). split.
    { constructor; [|exact HF]. unfold line_bytes. rewrite E. exact E1. }
    intros i tail Hlen. cbn zeta.
    set (hb := if addr =? load then [load mod 256; load / 256 mod 256] else []).
    assert (Hhdr : List.concat header = hb
                   /\ (addr = load -> 0 <= load <= 65535)).
    { unfold hb. destruct (addr =? load) eqn:Ea.
      - apply Z.eqb_eq in Ea. subst addr. bind_ok E0.
        apply to_bytes_2_ok in E2 as [Hl ->]. injection E0 as <-. auto.
      - injection E0 as <-. apply Z.eqb_neq in Ea. split; [reflexivity|tauto]. }
    destruct Hhdr as [Hhb Hload].
    assert (Hlen_hb : List.length hb = if addr =? load then 2%nat else 0%nat)
      by (unfold hb; now destruct (addr =? load)).
    cbn [List.concat]. rewrite concat_app, Hhb. cbn [List.concat].
    rewrite app_nil_r, <- !app_assoc. rewrite <- Hlen_hb.
    set (body := (List.concat out_list' ++ tail)).
    rewrite firstn_cons. cbn [frames_size].
    assert (Hrest : forall k, (S k < S (List.length rest))%nat ->
              0 <= addr' + Z.of_nat (frames_size (firstn (S k) toks)) <= 65535
              /\ field16 body (frames_size (firstn k toks))
                 = Some (addr' + Z.of_nat (frames_size (firstn (S k) toks)))).
    { intros k Hk. destruct (Hi k tail ltac:(lia)) as (Hr & Hf & _).
      replace (addr' =? load) with false in Hf
        by (symmetry; apply Z.eqb_neq; lia).
      cbn [plus] in Hf. auto. }
    split; [|split].
    + destruct i as [|i].
      * rewrite firstn_O. cbn [frames_size]. unfold addr' in Hlink. lia.
      * destruct (Hrest i Hlen) as [Hr _]. unfold addr' in Hr. lia.
    + rewrite field16_skip. destruct i as [|i].
      * rewrite !firstn_O. cbn [frames_size].
        replace (addr + Z.of_nat (4 + List.length byte_list + 0)) with addr'
          by (unfold addr'; lia).
        now apply field16_le.
      * destruct (Hrest i Hlen) as [_ Hf].
        rewrite firstn_cons. cbn [frames_size].
        set (lk := [addr' mod 256; addr' / 256 mod 256]).
        set (nm := [line_num mod 256; line_num / 256 mod 256]).
        rewrite !app_assoc, <- (app_assoc _ _ byte_list).
        replace (4 + List.length byte_list + frames_size (firstn i toks))%nat
          with (List.length ((lk ++ nm) ++ byte_list)
                + frames_size (firstn i toks))%nat
          by (rewrite !length_app; reflexivity).
        rewrite field16_skip, Hf. f_equal. unfold addr'. lia.
    + intros Ha. unfold hb. rewrite Ha, Z.eqb_refl.
      apply field16_le. auto.
Qed.

(** C1: whenever the assembly loop of [main] produces its flattened
    stream from a list of N lines at a load address, every line has a
    tokenized byte sequence (terminator included), and the 16-bit
    little-endian link field emitted for line i, which lies 2 header bytes
    and the frames of lines 0..i-1 into the stream, holds the load address
    plus the sum over lines 0..i of 4 + the length of the line's byte
    sequence.  As the frame of line i+1 lies the frames of lines 0..i
    behind the header, that is, at this very address once the stream is
    loaded at the load address, the link of each line is the address
    where the next line starts.  The stream of a non-empty program begins
    with the load address, and every stream ends with the bytes 0, 0. *)
Theorem address_chain (lines_list : list string) (out : list Z) :
  assemble TOKENS load lines_list = Ok out ->
  exists toks,
    Forall2 (fun line byte_list => line_bytes TOKENS line = Ok byte_list)
            lines_list toks
    /\ (forall i, (i < List.length lines_list)%nat ->
          field16 out (2 + frames_size (firstn i toks))
          = Some (load + Z.of_nat (frames_size (firstn (S i) toks))))
    /\ (lines_list <> [] -> field16 out 0 = Some load)
    /\ exists body, out = body ++ [0; 0].
Proof.
  unfold assemble. intros H. bind_ok H. rename a into out_list.
  injection H as <-.
  destruct (assemble_lines_fields lines_list load out_list (Z.le_refl _) E)
    as (toks & HF & Hi).
  exists toks. rewrite concat_app. cbn [List.concat]. rewrite app_nil_r.
  split; [exact HF|]. split; [|split].
  - intros i Hlen. specialize (Hi i [0; 0] Hlen). cbn zeta in Hi.
    rewrite Z.eqb_refl in Hi. tauto.
  - intros Hne. destruct lines_list as [|l ls]; [congruence|].
    specialize (Hi 0%nat [0; 0] (Nat.lt_0_succ _)). cbn zeta in Hi.
    destruct Hi as (_ & _ & H0). now apply H0.
  - eauto.
Qed.

End AddressChain.

Lemma address_chain_witness :
  exists toks,
    Forall2 (fun line byte_list =>
               line_bytes (Some CORE_TOKENS) line = Ok byte_list)
            [print_hi; "20 goto 10"] toks
    /\ (forall i, (i < 2)%nat ->
          field16 [1; 8; 12; 8; 10; 0; 153; 32; 34; 72; 73; 34; 0;
                   21; 8; 20; 0; 137; 32; 49; 48; 0; 0; 0]
                  (2 + frames_size (firstn i toks))
          = Some (2049 + Z.of_nat (frames_size (firstn (S i) toks))))
    /\ ([print_hi; "20 goto 10"] <> [] ->
        field16 [1; 8; 12; 8; 10; 0; 153; 32; 34; 72; 73; 34; 0;
                 21; 8; 20; 0; 137; 32; 49; 48; 0; 0; 0] 0 = Some 2049)
    /\ exists body,
         [1; 8; 12; 8; 10; 0; 153; 32; 34; 72; 73; 34; 0;
          21; 8; 20; 0; 137; 32; 49; 48; 0; 0; 0] = body ++ [0; 0].
Proof.
  apply (address_chain (Some CORE_TOKENS) 2049 [print_hi; "20 goto 10"]).
  reflexivity.
Defined.

(** ** The program *)

Section Main.

Lemma nth_error_short {A} (l : list A) (n : nat) :
  (List.length l <= n)%nat -> nth_error l n = None.
Proof. apply nth_error_None. Qed.

(** C10: whenever [main] gets as far as assembling the program (the
    arguments are accepted, the source is read and normalized, the .bas
    file is written) and the flattened stream, with load-address header,
    framed lines and the final 0, 0, is at most 561 bytes long, the run
    ends in an uncaught IndexError raised by [out_list[561]], after the
    assembly and before the binary file is opened: no binary file is
    written. *)
Theorem small_program_index_error (TOKENS : option table) (a : args)
  (io : console) (lines lines_list : list string) (load : Z)
  (out_list : list Z) :
  parse_args a = true ->
  file_in a = Some lines ->
  petcat_lines (source a) (read_file lines) = inr lines_list ->
  confirmed (bas_isfile io) (bas_answer io) = true ->
  loadaddr a = Ok load ->
  assemble (configure_tokens TOKENS (version a)) load lines_list
  = Ok out_list ->
  (List.length out_list <= 561)%nat ->
  main TOKENS a io = Run (Uncaught IndexError) (Some lines_list) None.
Proof.
  intros Hargs Hfile Hpet Hbas Hload Hasm Hlen.
  unfold main. rewrite Hargs, Hfile, Hpet, Hbas. cbn [negb].
  unfold tokenize_and_write. rewrite Hload. cbn [bind]. rewrite Hasm.
  now rewrite (nth_error_short _ _ Hlen).
Qed.

End Main.

Lemma small_program_index_error_witness :
  main fresh_interpreter small_args fresh_disk =
  Run (Uncaught IndexError) (Some [print_hi; "20 goto 10"]) None.
Proof.
  apply (small_program_index_error fresh_interpreter small_args fresh_disk
           [print_hi; "20 goto 10"] [print_hi; "20 goto 10"] 2049
           [1; 8; 12; 8; 10; 0; 153; 32; 34; 72; 73; 34; 0;
            21; 8; 20; 0; 137; 32; 49; 48; 0; 0; 0]);
    try reflexivity.
  simpl. lia.
Defined.

(** ** Versions without a table *)

Section Unbound.

Lemma PETCAT_state_neutral : state_neutral PETCAT_TOKENS = true.
Proof. reflexivity. Qed.

Lemma petcat_keeps_state (st : lexer) (ln : string) (v : Z) (rest : string) :
  first_match PETCAT_TOKENS ln = Some (v, rest) ->
  in_quotes (record_byte st v) = in_quotes st
  /\ in_remark (record_byte st v) = in_remark st.
Proof.
  intros H. destruct (first_match_In _ _ _ _ H) as (t & Hin & _).
  pose proof PETCAT_state_neutral as Hn. unfold state_neutral in Hn.
  rewrite forallb_forall in Hn. specialize (Hn _ Hin). cbn [snd] in Hn.
  apply andb_true_iff in Hn as [H1 H2].
  apply negb_true_iff in H1, H2.
  unfold record_byte. cbn [in_quotes in_remark]. now rewrite H1, H2.
Qed.

Lemma mnemonics_head (ms : table) (c : ascii) (ln : string) :
  mnemonics ms (String c ln) ->
  exists v rest ms',
    first_match PETCAT_TOKENS (String c ln) = Some (v, rest)
    /\ mnemonics ms' rest /\ map snd ms = v :: map snd ms'.
Proof.
  intros [Hall Heq]. destruct ms as [|[t v] ms']; [discriminate|].
  inversion Hall as [|? ? Hin Hall']; subst.
  exists v, (join (map fst ms')), ms'. cbn [map fst join] in Heq.
  rewrite Heq. split; [now apply petcat_first_match|].
  split; [now split | reflexivity].
Qed.

(** With [TOKENS] unbound, the loop started outside quotes and remarks
    gets through exactly the texts that are sequences of mnemonics. *)
Lemma scan_from_unbound (ln : string) (st : lexer) :
  tokenizing st = true ->
  (exists ms st', mnemonics ms ln
                  /\ scan_from None ln st = Ok st'
                  /\ bytes st' = bytes st ++ map snd ms)
  \/ ((~ exists ms, mnemonics ms ln)
      /\ scan_from None ln st = Raise NameError).
Proof.
  apply (scan_from_ind None I (fun ln st r =>
    tokenizing st = true ->
    (exists ms st', mnemonics ms ln /\ r = Ok st'
                    /\ bytes st' = bytes st ++ map snd ms)
    \/ ((~ exists ms, mnemonics ms ln) /\ r = Raise NameError))).
  - intros s _. left. exists [], s. split; [split; [constructor|reflexivity]|].
    split; [reflexivity|]. simpl. now rewrite app_nil_r.
  - intros c l s e Hs Htk. right. rewrite Htk in Hs. unfold scan in Hs.
    destruct (first_match PETCAT_TOKENS (String c l)) as [r|] eqn:Ep;
      [discriminate|].
    injection Hs as <-. split; [|reflexivity].
    intros [ms Hms]. apply mnemonics_head in Hms as (v & rest & ms' & H & _).
    congruence.
  - intros c l s b l' Hs IH Htk. rewrite Htk in Hs. unfold scan in Hs.
    destruct (first_match PETCAT_TOKENS (String c l)) as [r|] eqn:Ep;
      [|discriminate].
    injection Hs as ->.
    destruct (petcat_keeps_state s _ _ _ Ep) as [Hq Hr].
    assert (Htk' : tokenizing (record_byte s b) = true)
      by (unfold tokenizing in *; now rewrite Hq, Hr).
    destruct (IH Htk') as [(ms & st' & Hms & Hok & Hb)|[Hno Herr]].
    + left. destruct (first_match_In _ _ _ _ Ep) as (t & Hin & Hln).
      exists ((t, b) :: ms), st'. split.
      { destruct Hms as [Hall Heq]. split; [now constructor|].
        cbn [map fst join]. now rewrite <- Heq. }
      split; [exact Hok|]. rewrite Hb. simpl. now rewrite <- app_assoc.
    + right. split; [|exact Herr].
      intros [ms Hms]. apply mnemonics_head in Hms as (v & rest & ms' & H & Hm & _).
      rewrite Ep in H. injection H as <- <-. apply Hno. eauto.
Qed.

End Unbound.

(** With the keyword table unbound, [scan_manager] gets through a
    statement text, with the bytes of its mnemonics and the terminator,
    exactly when the text is a (possibly empty) sequence of mnemonics;
    on any other text it raises NameError. *)
Lemma unbound_table_lexing (txt : string) :
  (exists ms, mnemonics ms txt
              /\ scan_manager None txt = Ok (map snd ms ++ [0]))
  \/ ((~ exists ms, mnemonics ms txt)
      /\ scan_manager None txt = Raise NameError).
Proof.
  unfold scan_manager, scan_state.
  fold (scan_from None txt (Lexer false false [])).
  destruct (scan_from_unbound txt (Lexer false false []) eq_refl)
    as [(ms & st' & Hms & Hok & Hb)|[Hno Herr]].
  - left. exists ms. split; [exact Hms|]. rewrite Hok. cbn [bind].
    now rewrite Hb.
  - right. split; [exact Hno|]. now rewrite Herr.
Qed.

(** C5 does not hold of the code, by a defect of the code.  The tool offers
    versions 1, 3, 4 and 7, but binds [TOKENS] for version 2 only and
    checks nothing.  In a fresh interpreter, with version 3 and the
    source line [10 print "hi"], [main] writes the .bas file and then
    ends in an uncaught NameError raised by [scan] while the first line
    is tokenized, not in an unsupported-version error raised before
    tokenization; a program of 113 bare line numbers, in which no keyword
    is ever looked up, is converted and its binary file written without
    any error; and where an earlier call of [main] with version 2 left
    [TOKENS] bound, version 3 is silently lexed with the version 2
    table. *)
Theorem version_3_name_error :
  main fresh_interpreter version_3_args fresh_disk
  = Run (Uncaught NameError) (Some [print_hi]) None
  /\ (exit version_3_run = Returned /\ prg_file version_3_run <> None)
  /\ line_bytes (configure_tokens (Some CORE_TOKENS) "3") print_hi
     = Ok [153; 32; 34; 72; 73; 34; 0].
Proof.
  split; [reflexivity|]. split; [|reflexivity].
  vm_compute. split; [reflexivity | discriminate].
Qed.

Example version_3_print :
  scan_manager (configure_tokens fresh_interpreter "3") "print"
  = Raise NameError
  /\ scan_manager (configure_tokens fresh_interpreter "3") "{clr}{home}"
     = Ok [147; 19; 0].
Proof. split; reflexivity. Qed.

(** ** The ahoy normalizer *)

Section Normalizer.

Lemma has_brace_cons (c : ascii) (s : string) :
  has_brace (String c s) = is_brace c || has_brace s.
Proof. reflexivity. Qed.

Lemma opens_code_brace (c : ascii) (s : string) :
  opens_code (String c s) = true -> is_brace c = true.
Proof.
  destruct s as [|a [|b [|c3 rest]]]; simpl; try discriminate.
  unfold is_code, is_brace. intros H.
  apply andb_true_iff in H as [H _]. apply andb_true_iff in H as [H _].
  apply andb_true_iff in H as [H _]. rewrite H. apply orb_true_r.
Qed.

Lemma re_split_cons (c0 : ascii) (line : string) :
  re_split (String c0 line) =
  if opens_code (String c0 line)
  then EmptyString :: re_split (drop 3 line)
  else push c0 (re_split line).
Proof.
  destruct line as [|a [|b [|c3 rest]]]; reflexivity.
Qed.

Lemma re_findall_cons (c0 : ascii) (line : string) :
  re_findall (String c0 line) =
  if opens_code (String c0 line)
  then String.substring 0 4 (String c0 line) :: re_findall (drop 3 line)
  else re_findall line.
Proof.
  destruct line as [|a [|b [|c3 rest]]]; try reflexivity.
  cbn [re_findall opens_code drop]. destruct (is_code c0 a b c3); [|reflexivity].
  f_equal. simpl. now destruct rest.
Qed.

Lemma existsb_push (c : ascii) (pieces : list string) :
  existsb has_brace (push c pieces) = is_brace c || existsb has_brace pieces.
Proof.
  destruct pieces as [|s pieces]; simpl.
  - now rewrite !orb_false_r.
  - fold (is_brace c). now rewrite orb_assoc.
Qed.

Lemma get_drop (n : nat) :
  forall (i : nat) (s : string),
    String.get (n + i) s = String.get i (drop n s).
Proof.
  induction n as [|n IH]; intros i s; [reflexivity|].
  destruct s as [|c s]; simpl; [now destruct i | apply IH].
Qed.

Lemma drop_drop (n : nat) :
  forall (p : nat) (s : string), drop p (drop n s) = drop (n + p) s.
Proof.
  induction n as [|n IH]; intros p s; [reflexivity|].
  destruct s as [|c s]; simpl; [now destruct p | apply IH].
Qed.

Lemma length_drop (n : nat) :
  forall s : string, (String.length (drop n s) <= String.length s)%nat.
Proof.
  induction n as [|n IH]; intros s; [simpl; lia|].
  destruct s as [|c s]; simpl; [lia|]. specialize (IH s). lia.
Qed.

(** A brace outside every match is found by the loose-brace check. *)
Lemma stray_brace_found (line : string) :
  stray_brace line -> existsb has_brace (re_split line) = true.
Proof.
  remember (String.length line) as n eqn:Hn. revert line Hn.
  induction n as [n IH] using lt_wf_ind. intros line Hn (i & c & Hget & Hc & Hout).
  destruct line as [|c0 line]; [now destruct i|].
  rewrite re_split_cons.
  destruct (opens_code (String c0 line)) eqn:Eo.
  - cbn [existsb has_brace orb].
    assert (Hi : (4 <= i)%nat).
    { destruct (Nat.lt_ge_cases i 4) as [Hlt|]; [|assumption].
      specialize (Hout 0%nat ltac:(lia)). cbn [drop] in Hout. congruence. }
    apply (IH (String.length (drop 3 line))); [|reflexivity|].
    + subst n. pose proof (length_drop 3 line). cbn [String.length]. lia.
    + exists (i - 4)%nat, c. split; [|split; [exact Hc|]].
      * change (drop 3 line) with (drop 4 (String c0 line)).
        rewrite <- get_drop. now replace (4 + (i - 4))%nat with i by lia.
      * intros p Hp. change (drop 3 line) with (drop 4 (String c0 line)).
        rewrite drop_drop. apply Hout. lia.
  - rewrite existsb_push. destruct i as [|i].
    + simpl in Hget. injection Hget as ->. now rewrite Hc.
    + apply orb_true_iff. right.
      apply (IH (String.length line));
        [subst n; cbn [String.length]; lia | reflexivity|].
      exists i, c. split; [exact Hget|]. split; [exact Hc|].
      intros p Hp. apply (Hout (S p)). lia.
Qed.

Lemma re_split_text (s t p : string) (ps : list string) :
  has_brace s = false ->
  re_split t = p :: ps ->
  re_split (s +++ t) = (s +++ p) :: ps.
Proof.
  intros Hs Ht. induction s as [|c s IH]; [exact Ht|].
  rewrite has_brace_cons in Hs. apply orb_false_iff in Hs as [Hc Hs].
  cbn [String.append]. rewrite re_split_cons.
  destruct (opens_code _) eqn:Eo.
  - apply opens_code_brace in Eo. congruence.
  - rewrite (IH Hs). reflexivity.
Qed.

Lemma re_findall_text (s t : string) :
  has_brace s = false -> re_findall (s +++ t) = re_findall t.
Proof.
  intros Hs. induction s as [|c s IH]; [reflexivity|].
  rewrite has_brace_cons in Hs. apply orb_false_iff in Hs as [Hc Hs].
  cbn [String.append]. rewrite re_findall_cons.
  destruct (opens_code _) eqn:Eo.
  - apply opens_code_brace in Eo. congruence.
  - now apply IH.
Qed.

Lemma re_split_code (a b : ascii) (rest : string) :
  isword a = true -> isword b = true ->
  re_split (code a b +++ rest) = EmptyString :: re_split rest.
Proof.
  intros Ha Hb. unfold code. cbn [String.append re_split].
  unfold is_code. now rewrite Ha, Hb.
Qed.

Lemma re_findall_code (a b : ascii) (rest : string) :
  isword a = true -> isword b = true ->
  re_findall (code a b +++ rest) = code a b :: re_findall rest.
Proof.
  intros Ha Hb. unfold code. cbn [String.append re_findall].
  unfold is_code. now rewrite Ha, Hb.
Qed.

(** What the body of the loop computes on a well-formed line. *)
Lemma normal_form_pieces (line new_line : string) :
  normal_form line new_line ->
  exists p ps cs w,
    re_split line = p :: ps
    /\ existsb has_brace (p :: ps) = false
    /\ lookup_codes (re_findall line) = Ok cs
    /\ weave (p :: ps) (cs ++ [EmptyString]) = Ok w
    /\ join w = new_line
    /\ (cs = [] -> ps = [] /\ p = new_line).
Proof.
  induction 1 as [s Hs|s a b canon rest rest' Hs Ha Hb Hget _ IH].
  - exists s, [], [], [s; EmptyString].
    assert (Hsp : re_split s = [s]).
    { rewrite <- (append_nil_r s) at 1.
      rewrite (re_split_text s EmptyString EmptyString []) by auto.
      now rewrite append_nil_r. }
    rewrite Hsp. repeat split.
    + simpl. now rewrite Hs.
    + rewrite <- (append_nil_r s). now rewrite re_findall_text.
    + simpl. now rewrite append_nil_r.
  - destruct IH as (p & ps & cs & w & Hsp & Hex & Hlk & Hw & Hj & _).
    exists s, (p :: ps), (canon :: cs), (s :: canon :: w).
    split; [|split; [|split; [|split; [|split]]]].
    + rewrite (re_split_text s _ EmptyString (p :: ps)) by
        (auto; now rewrite re_split_code, Hsp).
      now rewrite append_nil_r.
    + change (existsb has_brace (s :: p :: ps))
        with (has_brace s || existsb has_brace (p :: ps)).
      now rewrite Hs, Hex.
    + rewrite re_findall_text, re_findall_code by auto.
      cbn [lookup_codes]. rewrite Hget. cbn [bind]. now rewrite Hlk.
    + rewrite <- app_comm_cons.
      change (weave (s :: p :: ps) (canon :: cs ++ [EmptyString]))
        with (new_line <- weave (p :: ps) (cs ++ [EmptyString]) ;;
              Ok (s :: canon :: new_line)).
      now rewrite Hw.
    + cbn [join]. now rewrite Hj.
    + discriminate.
Qed.

Lemma ahoy_line_normal_form (line new_line : string) :
  normal_form line new_line -> ahoy_line line = Ok (Some new_line).
Proof.
  intros H.
  destruct (normal_form_pieces _ _ H)
    as (p & ps & cs & w & Hsp & Hex & Hlk & Hw & Hj & Hnil).
  unfold ahoy_line. rewrite Hsp, Hex, Hlk. cbn [bind].
  destruct cs as [|c cs].
  - destruct (Hnil eq_refl) as [-> ->]. cbn [bind join].
    now rewrite append_nil_r.
  - rewrite Hw. cbn [bind]. now rewrite Hj.
Qed.

Lemma ahoy_loop_normal_form (lines_list new_lines : list string) :
  Forall2 normal_form lines_list new_lines ->
  forall acc, ahoy_loop lines_list acc = Ok (NewLines (acc ++ new_lines)).
Proof.
  induction 1 as [|l o ls os Hlo _ IH]; intros acc.
  - simpl. now rewrite app_nil_r.
  - cbn [ahoy_loop]. rewrite (ahoy_line_normal_form _ _ Hlo). cbn [bind].
    rewrite IH, <- app_assoc. reflexivity.
Qed.

Lemma ahoy_loop_stray (before : list string) (line : string)
  (after : list string) :
  Forall (fun l => exists o, normal_form l o) before ->
  stray_brace line ->
  forall acc, ahoy_loop (before ++ line :: after) acc = Ok (LooseBrace line).
Proof.
  intros Hb Hs. induction Hb as [|l ls [o Hlo] _ IH]; intros acc.
  - cbn [app ahoy_loop]. unfold ahoy_line.
    now rewrite (stray_brace_found _ Hs).
  - cbn [app ahoy_loop]. rewrite (ahoy_line_normal_form _ _ Hlo). cbn [bind].
    apply IH.
Qed.

Lemma dict_get_In (d : list (string * string)) (key : list Z) (v : string) :
  dict_get d key = Ok v -> exists k, In (k, v) d.
Proof.
  induction d as [|[k' v'] d IH]; simpl; [discriminate|].
  destruct (list_eq_dec _ _ _).
  - intros [= <-]. eauto.
  - intros H. destruct (IH H) as [k Hk]. eauto.
Qed.

(** Every mnemonic the ahoy table yields is in the petcat table. *)
Lemma ahoy_values_petcat (k canon : string) :
  In (k, canon) AHOY_TO_PETCAT -> exists v, In (canon, v) PETCAT_TOKENS.
Proof.
  unfold AHOY_TO_PETCAT. intros Hin.
  repeat (destruct Hin as [[= <- <-]|Hin];
          [unfold PETCAT_TOKENS; eexists;
           repeat (try (left; reflexivity); right)|]).
  contradiction.
Qed.

Lemma normal_form_canonical (line new_line : string) :
  normal_form line new_line -> canonical_text new_line.
Proof.
  induction 1 as [s Hs|s a b canon rest rest' Hs Ha Hb Hget _ IH].
  - now apply ct_text.
  - destruct (dict_get_In _ _ _ Hget) as [k Hk].
    destruct (ahoy_values_petcat _ _ Hk) as [v Hv].
    now apply (ct_code s canon v rest').
Qed.

End Normalizer.

(** ** Balanced and unbalanced braces *)

Lemma normal_form_10_sc : normal_form "10 {sc}" "10 {clr}".
Proof.
  apply (nf_code "10 " "s" "c" "{clr}" EmptyString EmptyString);
    try reflexivity.
  now apply nf_text.
Qed.

(** C4, as stated, fails: the line [10 {sc}] holds one correctly paired
    placeholder of the table and nothing else in braces; it is normalized
    to [10 {clr}], which holds both braces. *)
Lemma normalized_line_has_braces :
  (exists o, normal_form "10 {sc}" o)
  /\ ahoy_lines_list ["10 {sc}"] = Ok (NewLines ["10 {clr}"])
  /\ ~ (exists new_lines,
          ahoy_lines_list ["10 {sc}"] = Ok (NewLines new_lines)
          /\ Forall (fun o => has_brace o = false) new_lines).
Proof.
  split; [exists "10 {clr}"; exact normal_form_10_sc|].
  split; [reflexivity|].
  intros (new_lines & H & Hall). vm_compute in H. injection H as <-.
  inversion Hall as [|? ? Hb _]. discriminate Hb.
Qed.

(** C4, amended: for every ahoy-dialect input whose lines are brace-free
    text interleaved with correctly paired placeholders of the table,
    normalization succeeds and returns, line for line, the input with
    each placeholder replaced by its petcat mnemonic; in every
    normalized line the only braces are those of such mnemonics. *)
Theorem balanced_braces (lines_list new_lines : list string) :
  Forall2 normal_form lines_list new_lines ->
  ahoy_lines_list lines_list = Ok (NewLines new_lines)
  /\ Forall canonical_text new_lines.
Proof.
  intros H. split.
  - unfold ahoy_lines_list. now rewrite (ahoy_loop_normal_form _ _ H).
  - induction H as [|l o ls os Hlo _ IH]; constructor; [|exact IH].
    now apply (normal_form_canonical l).
Qed.

Lemma balanced_braces_witness :
  ahoy_lines_list ["10 {sc}"; "20 end"] = Ok (NewLines ["10 {clr}"; "20 end"])
  /\ Forall canonical_text ["10 {clr}"; "20 end"].
Proof.
  apply (balanced_braces ["10 {sc}"; "20 end"] ["10 {clr}"; "20 end"]).
  constructor; [exact normal_form_10_sc|].
  constructor; [|constructor].
  apply nf_text. reflexivity.
Defined.

Lemma stray_brace_20 : stray_brace "20 {".
Proof.
  exists 3%nat, "{"%char. split; [reflexivity|]. split; [reflexivity|].
  intros p Hp.
  do 4 (destruct p as [|p]; [reflexivity|]). lia.
Qed.

(** C6, as stated, fails: the second line of [unknown_then_loose] holds
    a stray brace, yet normalization ends in KeyError, raised on the first
    line, and not in a format error naming the second. *)
Lemma key_error_before_loose_brace :
  stray_brace "20 {"
  /\ ahoy_lines_list unknown_then_loose = Raise KeyError
  /\ exit unknown_then_loose_run = Uncaught KeyError.
Proof. split; [exact stray_brace_20 | split; reflexivity]. Qed.

(** C6, amended: for every ahoy-dialect input in which some line holds a
    brace outside every match of the placeholder pattern, and every
    earlier line is brace-free text interleaved with placeholders of the
    table, normalization returns the format error with that line, as
    [read_file] delivered it; [main] quotes the line and exits, and
    writes neither the .bas nor the binary file. *)
Theorem loose_brace_reported (before : list string) (line : string)
  (after : list string) :
  Forall (fun l => exists o, normal_form l o) before ->
  stray_brace line ->
  ahoy_lines_list (before ++ line :: after) = Ok (LooseBrace line)
  /\ forall (TOKENS : option table) (a : args) (io : console)
            (lines : list string),
       parse_args a = true ->
       source a = "ahoy" ->
       file_in a = Some lines ->
       read_file lines = before ++ line :: after ->
       main TOKENS a io = Run (LooseBraceError line) None None.
Proof.
  intros Hb Hs.
  assert (H : ahoy_lines_list (before ++ line :: after) = Ok (LooseBrace line))
    by (unfold ahoy_lines_list; now apply ahoy_loop_stray).
  split; [exact H|].
  intros TOKENS a io lines Hargs Hsrc Hfile Hread.
  unfold main. rewrite Hargs, Hfile, Hread, Hsrc. cbn [negb].
  unfold petcat_lines.
  change ("ahoy" =? "ahoy")%string with true. cbv iota.
  now rewrite H.
Qed.

Lemma loose_brace_reported_witness :
  ahoy_lines_list (["10 print {sc}"] ++ "20 print {chr$(5)" :: [])
  = Ok (LooseBrace "20 print {chr$(5)")
  /\ main fresh_interpreter loose_args fresh_disk
     = Run (LooseBraceError "20 print {chr$(5)") None None.
Proof.
  assert (Hb : Forall (fun l => exists o, normal_form l o) ["10 print {sc}"]).
  { constructor; [|constructor]. exists "10 print {clr}".
    apply (nf_code "10 print " "s" "c" "{clr}" EmptyString EmptyString);
      try reflexivity.
    now apply nf_text. }
  assert (Hs : stray_brace "20 print {chr$(5)").
  { exists 9%nat, "{"%char. split; [reflexivity|]. split; [reflexivity|].
    intros p Hp. do 10 (destruct p as [|p]; [reflexivity|]). lia. }
  destruct (loose_brace_reported ["10 print {sc}"] "20 print {chr$(5)" []
              Hb Hs) as [H1 H2].
  split; [exact H1|].
  apply (H2 fresh_interpreter loose_args fresh_disk
           ["10 print {sc}"; "20 print {chr$(5)"]);
    reflexivity.
Defined.

(** ** Mnemonics in the middle of a text *)

Section Splicing.

Lemma startswith_text (token t : string) :
  has_brace token = false ->
  forall ln, startswith (ln +++ String "{" t) token = startswith ln token.
Proof.
  induction token as [|d token IH]; intros Hb ln; [reflexivity|].
  rewrite has_brace_cons in Hb. apply orb_false_iff in Hb as [Hd Hb].
  destruct ln as [|c ln]; cbn [String.append startswith].
  - unfold is_brace in Hd. apply orb_false_iff in Hd as [_ Hd].
    rewrite Ascii.eqb_sym. now rewrite Hd.
  - now rewrite IH.
Qed.

Lemma drop_text (token : string) :
  forall ln t, startswith ln token = true ->
    drop (String.length token) (ln +++ t)
    = drop (String.length token) ln +++ t.
Proof.
  induction token as [|d token IH]; intros ln t H; [reflexivity|].
  destruct ln as [|c ln]; [discriminate|].
  cbn [startswith] in H. apply andb_true_iff in H as [_ H].
  cbn [String.length String.append drop]. now apply IH.
Qed.

Lemma first_match_text (tbl : table) (ln t : string) :
  brace_free tbl = true ->
  first_match tbl (ln +++ String "{" t) =
  match first_match tbl ln with
  | Some (v, rest) => Some (v, rest +++ String "{" t)
  | None => None
  end.
Proof.
  unfold brace_free. induction tbl as [|[token value] tbl IH]; intros Hb;
    [reflexivity|].
  cbn [forallb fst] in Hb. apply andb_true_iff in Hb as [Ht Hb].
  apply negb_true_iff in Ht. cbn [first_match].
  rewrite (startswith_text token t Ht).
  destruct (startswith ln token) eqn:Es.
  - now rewrite drop_text.
  - now apply IH.
Qed.

Lemma brace_led_In (tbl : table) (token : string) (v : Z) :
  brace_led tbl = true -> In (token, v) tbl ->
  exists token', token = String "{" token'.
Proof.
  unfold brace_led. rewrite forallb_forall. intros H Hin.
  specialize (H _ Hin). cbn [fst] in H.
  destruct token as [|c token]; [discriminate|].
  cbn [startswith] in H. apply andb_true_iff in H as [H _].
  apply Ascii.eqb_eq in H. subst c. eauto.
Qed.

Lemma PETCAT_brace_led : brace_led PETCAT_TOKENS = true.
Proof. reflexivity. Qed.

Lemma CORE_brace_free : brace_free CORE_TOKENS = true.
Proof. reflexivity. Qed.

(** No mnemonic begins a text whose first character is not a brace. *)
Lemma petcat_no_match (c : ascii) (ln : string) :
  is_brace c = false -> first_match PETCAT_TOKENS (String c ln) = None.
Proof.
  intros Hc. apply first_match_None. apply Forall_forall.
  intros [token v] Hin. cbn [fst].
  destruct (brace_led_In _ _ _ PETCAT_brace_led Hin) as [token' ->].
  cbn [startswith]. unfold is_brace in Hc.
  apply orb_false_iff in Hc as [_ Hc]. now rewrite Hc.
Qed.

Variable tokens : table.
Hypothesis tokens_nonempty : nonempty_tokens tokens.
Hypothesis tokens_brace_free : brace_free tokens = true.

(** One call of [scan] on brace-free text does not look past it. *)
Lemma scan_text (c : ascii) (ln t : string) (tokenize : bool) :
  is_brace c = false ->
  scan (Some tokens) (String c ln +++ String "{" t) tokenize =
  match scan (Some tokens) (String c ln) tokenize with
  | Ok (v, rest) => Ok (v, rest +++ String "{" t)
  | Raise e => Raise e
  end.
Proof.
  intros Hc. unfold scan.
  change (String c ln +++ String "{" t) with (String c (ln +++ String "{" t)) at 1.
  rewrite !petcat_no_match by exact Hc.
  assert (Hlit : scan_char (String c ln +++ String "{" t) =
                 match scan_char (String c ln) with
                 | Ok (v, rest) => Ok (v, rest +++ String "{" t)
                 | Raise e => Raise e
                 end) by reflexivity.
  destruct tokenize; [|exact Hlit].
  rewrite first_match_text by exact tokens_brace_free.
  destruct (first_match tokens (String c ln)) as [[v rest]|]; [reflexivity|].
  exact Hlit.
Qed.

Lemma scan_rest_brace_free (ln : string) (tokenize : bool) (v : Z)
  (rest : string) :
  has_brace ln = false ->
  scan (Some tokens) ln tokenize = Ok (v, rest) ->
  has_brace rest = false.
Proof.
  intros Hb. unfold scan.
  assert (Htbl : forall tbl, first_match tbl ln = Some (v, rest) ->
                 has_brace rest = false).
  { intros tbl H. destruct (first_match_In _ _ _ _ H) as (tk & _ & ->).
    rewrite has_brace_append in Hb. now apply orb_false_iff in Hb. }
  assert (Hlit : scan_char ln = Ok (v, rest) -> has_brace rest = false).
  { destruct ln as [|c ln]; simpl; [discriminate|]. intros [= _ <-].
    rewrite has_brace_cons in Hb. now apply orb_false_iff in Hb. }
  destruct (first_match PETCAT_TOKENS ln) as [[v' r']|] eqn:Ep.
  - intros [= -> ->]. eauto.
  - destruct tokenize; [|exact Hlit].
    destruct (first_match tokens ln) as [[v' r']|] eqn:Et; [|exact Hlit].
    intros [= -> ->]. eauto.
Qed.

(** Lexing brace-free text followed by a brace: the text is lexed as if
    alone, and the loop goes on from the brace. *)
Lemma scan_from_text (t : string) (pre : string) (st : lexer) :
  has_brace pre = false ->
  scan_from (Some tokens) (pre +++ String "{" t) st =
  st1 <- scan_from (Some tokens) pre st ;;
  scan_from (Some tokens) (String "{" t) st1.
Proof.
  apply (scan_from_ind (Some tokens) tokens_nonempty (fun pre st r =>
    has_brace pre = false ->
    scan_from (Some tokens) (pre +++ String "{" t) st =
    st1 <- r ;; scan_from (Some tokens) (String "{" t) st1)).
  - reflexivity.
  - intros c l s e Hs Hb.
    rewrite has_brace_cons in Hb. apply orb_false_iff in Hb as [Hc Hb].
    change (String c l +++ String "{" t) with (String c (l +++ String "{" t)).
    rewrite (scan_from_cons (Some tokens) tokens_nonempty).
    change (String c (l +++ String "{" t)) with (String c l +++ String "{" t).
    now rewrite (scan_text c l t _ Hc), Hs.
  - intros c l s b l' Hs IH Hb.
    pose proof (scan_rest_brace_free _ _ _ _ Hb Hs) as Hb'.
    rewrite has_brace_cons in Hb. apply orb_false_iff in Hb as [Hc Hb].
    change (String c l +++ String "{" t) with (String c (l +++ String "{" t)).
    rewrite (scan_from_cons (Some tokens) tokens_nonempty).
    change (String c (l +++ String "{" t)) with (String c l +++ String "{" t).
    rewrite (scan_text c l t _ Hc), Hs. now apply IH.
Qed.

(** A mnemonic at the head of the text costs one iteration, which
    appends its byte and leaves the flags alone. *)
Lemma scan_from_mnemonic (canon : string) (v : Z) (post : string)
  (st : lexer) :
  In (canon, v) PETCAT_TOKENS ->
  scan_from (Some tokens) (canon +++ post) st =
  scan_from (Some tokens) post (resume (bytes st ++ [v]) (restart st)).
Proof.
  intros Hin.
  destruct (brace_led_In _ _ _ PETCAT_brace_led Hin) as [canon' Hc].
  pose proof (petcat_first_match canon v post Hin) as Hm.
  destruct (petcat_keeps_state st _ _ _ Hm) as [Hq Hr].
  rewrite Hc in *. cbn [String.append] in *.
  rewrite (scan_from_cons (Some tokens) tokens_nonempty). unfold scan. rewrite Hm.
  f_equal. unfold resume, restart. cbn [in_quotes in_remark bytes].
  rewrite app_nil_r, <- Hq, <- Hr. reflexivity.
Qed.

(** The bytes already collected do not influence the loop. *)
Lemma scan_from_resume (bs : list Z) (ln : string) (st : lexer) :
  scan_from (Some tokens) ln (resume bs st) =
  st' <- scan_from (Some tokens) ln st ;; Ok (resume bs st').
Proof.
  apply (scan_from_ind (Some tokens) tokens_nonempty (fun ln st r =>
    scan_from (Some tokens) ln (resume bs st) = st' <- r ;; Ok (resume bs st'))).
  - reflexivity.
  - intros c l s e Hs. rewrite (scan_from_cons (Some tokens) tokens_nonempty).
    change (tokenizing (resume bs s)) with (tokenizing s). now rewrite Hs.
  - intros c l s b l' Hs IH. rewrite (scan_from_cons (Some tokens) tokens_nonempty).
    change (tokenizing (resume bs s)) with (tokenizing s). rewrite Hs.
    rewrite <- IH. f_equal. unfold resume, record_byte.
    cbn [in_quotes in_remark bytes]. now rewrite app_assoc.
Qed.

(** Text, mnemonic, text: the bytes of the first text, the byte of the
    mnemonic, the bytes of the second text lexed in the state the first
    left. *)
Lemma scan_from_splice (pre canon post : string) (v : Z) :
  has_brace pre = false ->
  In (canon, v) PETCAT_TOKENS ->
  exists st1 st2,
    scan_state (Some tokens) pre = Ok st1
    /\ scan_from (Some tokens) post (restart st1) = Ok st2
    /\ scan_manager (Some tokens) (pre +++ canon +++ post)
       = Ok (bytes st1 ++ [v] ++ bytes st2 ++ [0]).
Proof.
  intros Hb Hin.
  destruct (scan_from_total tokens tokens_nonempty pre (Lexer false false []))
    as [st1 H1].
  destruct (scan_from_total tokens tokens_nonempty post (restart st1))
    as [st2 H2].
  exists st1, st2. split; [exact H1|]. split; [exact H2|].
  destruct (brace_led_In _ _ _ PETCAT_brace_led Hin) as [canon' Hc].
  unfold scan_manager, scan_state.
  fold (scan_from (Some tokens) (pre +++ canon +++ post) (Lexer false false [])).
  rewrite Hc. cbn [String.append]. rewrite (scan_from_text _ _ _ Hb).
  fold (scan_from (Some tokens) pre (Lexer false false [])) in H1.
  rewrite H1. cbn [bind].
  change (String "{" (canon' +++ post)) with (String "{" canon' +++ post).
  rewrite <- Hc, (scan_from_mnemonic _ _ _ _ Hin), scan_from_resume, H2.
  cbn [bind resume bytes]. now rewrite <- !app_assoc.
Qed.

End Splicing.

(** Each placeholder of the ahoy table, in lower case, matches the
    pattern and is found in the table again. *)
Lemma ahoy_placeholder (k canon : string) :
  In (k, canon) AHOY_TO_PETCAT ->
  exists a b,
    lower k = code a b /\ isword a = true /\ isword b = true
    /\ dict_get AHOY_TO_PETCAT (upper (code a b)) = Ok canon.
Proof.
  unfold AHOY_TO_PETCAT. intros Hin.
  repeat (destruct Hin as [[= <- <-]|Hin];
          [do 2 eexists; repeat split; reflexivity|]).
  contradiction.
Qed.

(** C7: for every placeholder [{XX}] of the ahoy table, with petcat
    mnemonic [canon], there is one byte [v] assigned to [canon] in the
    petcat table, and for all brace-free texts [pre] and [post]: the line
    [pre {xx} post] (the placeholder in lower case) is normalized to
    [pre canon post], and lexing that with the version 2 table gives the
    bytes of [pre], then the single byte [v], then the bytes of [post]
    (lexed in the quote and remark state [pre] left) and the terminator. *)
Theorem mnemonic_round_trip (k canon : string) :
  In (k, canon) AHOY_TO_PETCAT ->
  exists v,
    In (canon, v) PETCAT_TOKENS
    /\ (forall v', In (canon, v') PETCAT_TOKENS -> v' = v)
    /\ forall pre post,
         has_brace pre = false -> has_brace post = false ->
         ahoy_lines_list [pre +++ lower k +++ post]
         = Ok (NewLines [pre +++ canon +++ post])
         /\ exists st1 st2,
              scan_state (Some CORE_TOKENS) pre = Ok st1
              /\ scan_from (Some CORE_TOKENS) post (restart st1) = Ok st2
              /\ scan_manager (Some CORE_TOKENS) (pre +++ canon +++ post)
                 = Ok (bytes st1 ++ [v] ++ bytes st2 ++ [0]).
Proof.
  intros Hin.
  destruct (ahoy_values_petcat _ _ Hin) as [v Hv].
  exists v. split; [exact Hv|]. split.
  { intros v' Hv'.
    pose proof (petcat_first_match canon v EmptyString Hv) as H1.
    pose proof (petcat_first_match canon v' EmptyString Hv') as H2.
    congruence. }
  intros pre post Hpre Hpost. split.
  - destruct (ahoy_placeholder _ _ Hin) as (a & b & -> & Ha & Hb & Hget).
    unfold ahoy_lines_list.
    rewrite (ahoy_loop_normal_form [pre +++ code a b +++ post]
               [pre +++ canon +++ post]); [reflexivity|].
    constructor; [|constructor].
    apply nf_code; auto. now apply nf_text.
  - now apply (scan_from_splice CORE_TOKENS CORE_nonempty CORE_brace_free).
Qed.

Lemma mnemonic_round_trip_witness :
  exists v,
    In ("{left}", v) PETCAT_TOKENS
    /\ (forall v', In ("{left}", v') PETCAT_TOKENS -> v' = v)
    /\ forall pre post,
         has_brace pre = false -> has_brace post = false ->
         ahoy_lines_list [pre +++ lower "{CL}" +++ post]
         = Ok (NewLines [pre +++ "{left}" +++ post])
         /\ exists st1 st2,
              scan_state (Some CORE_TOKENS) pre = Ok st1
              /\ scan_from (Some CORE_TOKENS) post (restart st1) = Ok st2
              /\ scan_manager (Some CORE_TOKENS) (pre +++ "{left}" +++ post)
                 = Ok (bytes st1 ++ [v] ++ bytes st2 ++ [0]).
Proof.
  apply (mnemonic_round_trip "{CL}" "{left}").
  unfold AHOY_TO_PETCAT. simpl. tauto.
Defined.

Example cl_cl_hello :
  ahoy_lines_list ["{cl}{cl}hello"] = Ok (NewLines ["{left}{left}hello"])
  /\ scan_manager (Some CORE_TOKENS) "{left}{left}hello"
     = Ok [157; 157; 72; 69; 76; 76; 79; 0].
Proof. split; reflexivity. Qed.

(** * Further properties *)

(** ** The bytes of a tokenized line *)

Section Bytes.

Lemma ord_range (c : ascii) : 0 <= ord c <= 255.
Proof.
  unfold ord. pose proof (N_ascii_bounded c). lia.
Qed.

Lemma folded_char_petscii (c : ascii) : petscii_byte (folded_char c) = true.
Proof.
  unfold petscii_byte, folded_char, in_range. pose proof (ord_range c).
  destruct ((ord c >=? 97) && (ord c <=? 122)) eqn:E.
  - apply andb_true_iff in E as [E1 E2].
    apply andb_true_iff. split.
    + apply andb_true_iff. split; apply Z.leb_le; lia.
    + apply negb_true_iff, andb_false_iff. left. apply Z.leb_gt. lia.
  - apply andb_true_iff. split.
    + apply andb_true_iff. split; apply Z.leb_le; lia.
    + apply negb_true_iff. apply andb_false_iff in E as [E|E].
      * apply andb_false_iff. left. apply Z.leb_gt. lia.
      * apply andb_false_iff. right. apply Z.leb_gt. lia.
Qed.

Lemma scan_char_folded (c : ascii) (ln : string) :
  scan_char (String c ln) = Ok (folded_char c, ln).
Proof. reflexivity. Qed.

Lemma petscii_values_In (tbl : table) (token : string) (v : Z) :
  petscii_values tbl = true -> In (token, v) tbl -> petscii_byte v = true.
Proof.
  unfold petscii_values. rewrite forallb_forall. intros H Hin.
  exact (H _ Hin).
Qed.

Lemma PETCAT_petscii : petscii_values PETCAT_TOKENS = true.
Proof. reflexivity. Qed.

Lemma CORE_petscii : petscii_values CORE_TOKENS = true.
Proof. reflexivity. Qed.

Variable tokens : table.
Hypothesis tokens_nonempty : nonempty_tokens tokens.
Hypothesis tokens_petscii : petscii_values tokens = true.

Lemma scan_petscii (ln : string) (tokenize : bool) (v : Z) (rest : string) :
  scan (Some tokens) ln tokenize = Ok (v, rest) -> petscii_byte v = true.
Proof.
  unfold scan.
  assert (Hlit : scan_char ln = Ok (v, rest) -> petscii_byte v = true).
  { destruct ln as [|c ln]; [discriminate|]. rewrite scan_char_folded.
    intros [= <- _]. apply folded_char_petscii. }
  destruct (first_match PETCAT_TOKENS ln) as [[v' r']|] eqn:Ep.
  - intros [= -> ->]. destruct (first_match_In _ _ _ _ Ep) as (t & Hin & _).
    exact (petscii_values_In _ _ _ PETCAT_petscii Hin).
  - destruct tokenize; [|exact Hlit].
    destruct (first_match tokens ln) as [[v' r']|] eqn:Et; [|exact Hlit].
    intros [= -> ->]. destruct (first_match_In _ _ _ _ Et) as (t & Hin & _).
    exact (petscii_values_In _ _ _ tokens_petscii Hin).
Qed.

(** The loop appends one byte for each piece of text it consumes, and
    only bytes of one octet that are no lower-case letters. *)
Lemma scan_from_bytes (ln : string) (st st' : lexer) :
  scan_from (Some tokens) ln st = Ok st' ->
  exists bs,
    bytes st' = bytes st ++ bs
    /\ (List.length bs <= String.length ln)%nat
    /\ (ln <> EmptyString -> bs <> [])
    /\ Forall (fun b => petscii_byte b = true) bs.
Proof.
  revert st'.
  apply (scan_from_ind (Some tokens) tokens_nonempty (fun ln st r =>
    forall st', r = Ok st' ->
    exists bs, bytes st' = bytes st ++ bs
      /\ (List.length bs <= String.length ln)%nat
      /\ (ln <> EmptyString -> bs <> [])
      /\ Forall (fun b => petscii_byte b = true) bs)).
  - intros s st' [= <-]. exists []. rewrite app_nil_r.
    repeat split; [simpl; lia | congruence | constructor].
  - discriminate.
  - intros c l s b l' Hs IH st' Hr.
    destruct (IH _ Hr) as (bs & Hb & Hlen & _ & Hall).
    exists (b :: bs). split; [|split; [|split]].
    + rewrite Hb. simpl. now rewrite <- app_assoc.
    + apply (scan_shorter (Some tokens) tokens_nonempty) in Hs.
      simpl in *. lia.
    + discriminate.
    + constructor; [|exact Hall]. exact (scan_petscii _ _ _ _ Hs).
Qed.

End Bytes.

(** For every statement text all of whose characters lie in
    U+0000..U+00FF (the texts of this model; [scan] emits the code point
    of a literal character, so a character above U+00FF gives a value
    above 255): with the version 2 table [scan_manager] accepts the text;
    it returns at least the terminator and at most one byte for each
    character and the terminator, the last byte is the terminator 0, the
    empty text alone gives the terminator alone, and every byte fits one
    octet and is no lower-case ASCII letter. *)
Theorem scan_manager_bytes (txt : string) :
  exists body,
    scan_manager (Some CORE_TOKENS) txt = Ok (body ++ [0])
    /\ (List.length body <= String.length txt)%nat
    /\ (body = [] <-> txt = EmptyString)
    /\ Forall (fun b => 0 <= b <= 255 /\ ~ 97 <= b <= 122) (body ++ [0]).
Proof.
  destruct (scan_from_total CORE_TOKENS CORE_nonempty txt (Lexer false false []))
    as [st Hst].
  destruct (scan_from_bytes CORE_TOKENS CORE_nonempty CORE_petscii _ _ _ Hst)
    as (bs & Hb & Hlen & Hne & Hall).
  cbn [bytes app] in Hb. exists bs.
  unfold scan_manager, scan_state.
  fold (scan_from (Some CORE_TOKENS) txt (Lexer false false [])).
  rewrite Hst. cbn [bind]. rewrite Hb.
  split; [reflexivity|]. split; [exact Hlen|]. split.
  - split.
    + intros ->. destruct txt; [reflexivity|]. now elim Hne.
    + intros ->. destruct bs; [reflexivity|]. simpl in Hlen. lia.
  - apply Forall_app. split.
    + eapply Forall_impl; [|exact Hall]. intros b H.
      unfold petscii_byte, in_range in H.
      apply andb_true_iff in H as [H1 H2].
      apply andb_true_iff in H1 as [H0 H1].
      apply negb_true_iff, andb_false_iff in H2.
      apply Z.leb_le in H0, H1.
      split; [lia|]. intros [Ha Hz].
      destruct H2 as [H2|H2]; apply Z.leb_gt in H2; lia.
    + constructor; [lia | constructor].
Qed.

(** ** First match is longest match *)

Section Longest.

Lemma startswith_nested (t : string) :
  forall ln t',
    startswith ln t = true -> startswith ln t' = true ->
    (String.length t <= String.length t')%nat ->
    startswith t' t = true.
Proof.
  induction t as [|c t IH]; intros ln t' H H' Hlen; [reflexivity|].
  destruct t' as [|c' t']; [simpl in Hlen; lia|].
  destruct ln as [|d ln]; [discriminate|].
  cbn [startswith] in *.
  apply andb_true_iff in H as [Hc H]. apply andb_true_iff in H' as [Hc' H'].
  apply Ascii.eqb_eq in Hc, Hc'. subst c c'. rewrite Ascii.eqb_refl.
  cbn [andb]. apply (IH ln); auto. simpl in Hlen. lia.
Qed.

Lemma startswith_length (ln token : string) :
  startswith ln token = true ->
  String.length ln
  = (String.length token + String.length (drop (String.length token) ln))%nat.
Proof.
  intros H. rewrite (startswith_inv _ _ H) at 1. apply length_append.
Qed.

(** In a table where no token follows a proper prefix of itself, the
    first token that matches is a longest one. *)
Lemma first_match_longest (tbl : table) (ln : string) (v : Z) (rest : string) :
  unshadowed tbl = true ->
  first_match tbl ln = Some (v, rest) ->
  forall token' v',
    In (token', v') tbl -> startswith ln token' = true ->
    (String.length token' + String.length rest <= String.length ln)%nat.
Proof.
  induction tbl as [|[token value] tbl IH]; [discriminate|].
  cbn [unshadowed first_match]. intros Hu Hm token' v' Hin Hs.
  apply andb_true_iff in Hu as [Hhead Htail].
  destruct (startswith ln token) eqn:Es.
  - injection Hm as <- <-. pose proof (startswith_length _ _ Es) as Hl.
    destruct Hin as [[= <- <-]|Hin]; [lia|].
    rewrite forallb_forall in Hhead. specialize (Hhead _ Hin).
    cbn [fst] in Hhead.
    destruct (Nat.le_gt_cases (String.length token) (String.length token'))
      as [Hle|Hgt]; [|lia].
    rewrite (startswith_nested token ln token' Es Hs Hle) in Hhead.
    cbn [negb orb] in Hhead. apply Nat.leb_le in Hhead. lia.
  - destruct Hin as [[= <- <-]|Hin]; [congruence|].
    now apply (IH Htail Hm token' v').
Qed.

Lemma PETCAT_unshadowed : unshadowed PETCAT_TOKENS = true.
Proof. vm_compute. reflexivity. Qed.

Lemma CORE_unshadowed : unshadowed CORE_TOKENS = true.
Proof. vm_compute. reflexivity. Qed.

End Longest.

(** In both shipped tables the order of the entries makes the first
    match a longest match: when the look-up in the mnemonic table or in
    the version 2 keyword table returns, no entry of that table that
    begins the text is longer than the piece consumed. *)
Theorem shipped_tables_longest_match (tbl : table) (ln : string) (v : Z)
  (rest : string) :
  tbl = PETCAT_TOKENS \/ tbl = CORE_TOKENS ->
  first_match tbl ln = Some (v, rest) ->
  exists token,
    In (token, v) tbl /\ ln = token +++ rest
    /\ forall token' v',
         In (token', v') tbl -> startswith ln token' = true ->
         (String.length token' <= String.length token)%nat.
Proof.
  intros Htbl Hm.
  assert (Hu : unshadowed tbl = true)
    by (destruct Htbl as [->| ->];
        [exact PETCAT_unshadowed | exact CORE_unshadowed]).
  destruct (first_match_In _ _ _ _ Hm) as (token & Hin & Heq).
  exists token. split; [exact Hin|]. split; [exact Heq|].
  intros token' v' Hin' Hs'.
  pose proof (first_match_longest _ _ _ _ Hu Hm _ _ Hin' Hs') as H.
  rewrite Heq, length_append in H. lia.
Qed.

Lemma shipped_tables_longest_match_witness :
  exists token,
    In (token, 132) CORE_TOKENS /\ "input#1,a$" = token +++ "1,a$"
    /\ forall token' v',
         In (token', v') CORE_TOKENS ->
         startswith "input#1,a$" token' = true ->
         (String.length token' <= String.length token)%nat.
Proof.
  apply (shipped_tables_longest_match CORE_TOKENS "input#1,a$" 132 "1,a$").
  - right. reflexivity.
  - reflexivity.
Defined.

(** ** Text inside quotes and remarks *)

Section LiteralText.

Variable TOKENS : option table.
Hypothesis TOKENS_ok : tokens_ok TOKENS.

Lemma bytes_record_all (bs : list Z) :
  forall st, bytes (record_all st bs) = bytes st ++ bs.
Proof.
  unfold record_all.
  induction bs as [|b bs IH]; intros st; simpl; [now rewrite app_nil_r|].
  rewrite IH. simpl. now rewrite <- app_assoc.
Qed.

Lemma folded_char_quote (c : ascii) (s : string) :
  count_dq (String c s) = 0%nat -> folded_char c <> 34.
Proof.
  intros H. pose proof (scan_char_quotes (String c s) _ _ (scan_char_folded c s)) as Hq.
  rewrite H in Hq. unfold is_quote in Hq.
  destruct (folded_char c =? 34) eqn:E; [simpl in Hq; lia|].
  now apply Z.eqb_neq.
Qed.

Lemma in_quotes_record_all (s : string) :
  forall st, count_dq s = 0%nat ->
    in_quotes (record_all st (folded s)) = in_quotes st.
Proof.
  induction s as [|c s IH]; intros st H; [reflexivity|].
  pose proof (folded_char_quote c s H) as Hc.
  cbn [folded]. unfold record_all. cbn [fold_left].
  fold (record_all (record_byte st (folded_char c)) (folded s)).
  rewrite IH.
  - now apply record_byte_not_34.
  - simpl in H. lia.
Qed.

(** Where keywords are not tokenized, brace-free text is copied one
    character at a time. *)
Lemma literal_run (s t : string) :
  forall st,
    tokenizing st = false ->
    has_brace s = false ->
    in_remark st = true \/ count_dq s = 0%nat ->
    scan_from TOKENS (s +++ t) st
    = scan_from TOKENS t (record_all st (folded s)).
Proof.
  induction s as [|c s IH]; intros st Htk Hb Hq; [reflexivity|].
  rewrite has_brace_cons in Hb. apply orb_false_iff in Hb as [Hc Hb].
  cbn [String.append]. rewrite (scan_from_cons TOKENS TOKENS_ok).
  unfold scan. rewrite (petcat_no_match _ _ Hc), Htk, scan_char_folded.
  cbn [folded]. unfold record_all. cbn [fold_left].
  apply IH; [|exact Hb|].
  - unfold tokenizing in *. apply negb_false_iff in Htk.
    apply negb_false_iff. unfold record_byte. cbn [in_quotes in_remark].
    destruct Hq as [Hr|Hq].
    + rewrite Hr. destruct (folded_char c =? 143); apply orb_true_r.
    + apply folded_char_quote, Z.eqb_neq in Hq. rewrite Hq.
      apply orb_true_iff in Htk as [->| ->]; [reflexivity|].
      destruct (folded_char c =? 143); apply orb_true_r.
  - destruct Hq as [Hr|Hq].
    + left. unfold record_byte. cbn [in_remark]. rewrite Hr.
      now destruct (folded_char c =? 143).
    + right. simpl in Hq. lia.
Qed.

End LiteralText.

(** The text of a remark is not tokenized: after the keyword, brace-free
    text is copied character by character, lower-case letters folded to
    upper case, whatever keywords and quotes it holds. *)
Theorem remark_text_copied (s : string) :
  has_brace s = false ->
  scan_manager (Some CORE_TOKENS) ("rem" +++ s) = Ok (143 :: folded s ++ [0]).
Proof.
  intros Hb. unfold scan_manager, scan_state.
  fold (scan_from (Some CORE_TOKENS) ("rem" +++ s) (Lexer false false [])).
  cbn [String.append].
  rewrite (scan_from_cons (Some CORE_TOKENS) CORE_nonempty).
  change (scan (Some CORE_TOKENS) (String "r" (String "e" (String "m" s)))
            (tokenizing (Lexer false false [])))
    with (Ok (A := Z * string) (143, s)).
  rewrite <- (append_nil_r s) at 1.
  rewrite (literal_run (Some CORE_TOKENS) CORE_nonempty s EmptyString)
    by (auto; reflexivity).
  rewrite scan_from_nil. cbn [bind]. rewrite bytes_record_all. reflexivity.
Qed.

Lemma remark_text_copied_witness :
  scan_manager (Some CORE_TOKENS) ("rem" +++ " print for")
  = Ok (143 :: folded " print for" ++ [0]).
Proof. apply (remark_text_copied " print for"). reflexivity. Defined.

(** A string literal is not tokenized: between two double quotes,
    brace-free text without a double quote is copied character by
    character, lower-case letters folded to upper case. *)
Theorem quoted_text_copied (s : string) :
  has_brace s = false ->
  count_dq s = 0%nat ->
  scan_manager (Some CORE_TOKENS) (dquote +++ s +++ dquote)
  = Ok (34 :: folded s ++ [34; 0]).
Proof.
  intros Hb Hq. unfold scan_manager, scan_state.
  fold (scan_from (Some CORE_TOKENS) (dquote +++ s +++ dquote)
          (Lexer false false [])).
  unfold dquote at 1. cbn [String.append].
  rewrite (scan_from_cons (Some CORE_TOKENS) CORE_nonempty).
  change (scan (Some CORE_TOKENS) (String (chr 34) (s +++ dquote))
            (tokenizing (Lexer false false [])))
    with (Ok (A := Z * string) (34, s +++ dquote)).
  cbv beta iota.
  rewrite (literal_run (Some CORE_TOKENS) CORE_nonempty s dquote)
    by (auto; reflexivity).
  set (st := record_all (record_byte (Lexer false false []) 34) (folded s)).
  assert (Hin : in_quotes st = true)
    by (unfold st; now rewrite in_quotes_record_all).
  unfold dquote. rewrite (scan_from_cons (Some CORE_TOKENS) CORE_nonempty).
  unfold tokenizing. rewrite Hin. cbn [orb negb].
  change (scan (Some CORE_TOKENS) (String (chr 34) EmptyString) false)
    with (Ok (A := Z * string) (34, EmptyString)).
  cbv beta iota. rewrite scan_from_nil. cbn [bind]. unfold record_byte at 1. cbn [bytes].
  unfold st. rewrite bytes_record_all. cbn [bytes record_byte app].
  now rewrite <- app_assoc.
Qed.

Lemma quoted_text_copied_witness :
  scan_manager (Some CORE_TOKENS) (dquote +++ "print to end" +++ dquote)
  = Ok (34 :: folded "print to end" ++ [34; 0]).
Proof. apply (quoted_text_copied "print to end"); reflexivity. Defined.

(** ** The format error, exactly *)

Section FormatError.

Lemma opens_code_inv (c0 : ascii) (l : string) :
  opens_code (String c0 l) = true ->
  exists a b rest,
    l = String a (String b (String "}" rest))
    /\ c0 = "{"%char /\ isword a = true /\ isword b = true.
Proof.
  destruct l as [|a [|b [|c3 rest]]]; try discriminate.
  cbn [opens_code]. unfold is_code. intros H.
  apply andb_true_iff in H as [H H3]. apply andb_true_iff in H as [H Hb].
  apply andb_true_iff in H as [H0 Ha].
  apply Ascii.eqb_eq in H0, H3. subst. eauto 8.
Qed.

Lemma isword_not_opening (a : ascii) (s : string) :
  isword a = true -> opens_code (String a s) = false.
Proof.
  intros Ha. destruct (opens_code (String a s)) eqn:E; [|reflexivity].
  apply opens_code_inv in E as (? & ? & ? & _ & -> & _). discriminate Ha.
Qed.

(** What the loose-brace check finds is a brace outside every match. *)
Lemma loose_is_stray (line : string) :
  existsb has_brace (re_split line) = true -> stray_brace line.
Proof.
  remember (String.length line) as n eqn:Hn. revert line Hn.
  induction n as [n IH] using lt_wf_ind. intros line Hn H.
  destruct line as [|c0 l]; [discriminate|].
  rewrite re_split_cons in H.
  destruct (opens_code (String c0 l)) eqn:Eo.
  - cbn [existsb has_brace orb] in H.
    destruct (IH (String.length (drop 3 l))) with (line := drop 3 l)
      as (i & c & Hget & Hc & Hout); [| reflexivity | exact H |].
    { subst n. pose proof (length_drop 3 l). cbn [String.length]. lia. }
    exists (4 + i)%nat, c. split; [|split; [exact Hc|]].
    + rewrite get_drop. exact Hget.
    + intros p Hp.
      destruct (opens_code_inv _ _ Eo) as (a & b & rest & -> & -> & Ha & Hb).
      destruct p as [|[|[|[|p]]]]; [lia | | | |].
      * exact (isword_not_opening a _ Ha).
      * exact (isword_not_opening b _ Hb).
      * cbn [drop]. now destruct rest as [|x [|y [|z r]]].
      * change (drop (S (S (S (S p)))) (String "{" (String a (String b (String "}" rest)))))
          with (drop p (drop 3 (String a (String b (String "}" rest))))).
        apply Hout. lia.
  - rewrite existsb_push in H. destruct (is_brace c0) eqn:Ec.
    + exists 0%nat, c0. split; [reflexivity|]. split; [exact Ec|].
      intros p Hp. assert (p = 0)%nat by lia. subst p. exact Eo.
    + cbn [orb] in H.
      destruct (IH (String.length l)) with (line := l)
        as (i & c & Hget & Hc & Hout); [| reflexivity | exact H |].
      { subst n. cbn [String.length]. lia. }
      exists (S i), c. split; [exact Hget|]. split; [exact Hc|].
      intros p Hp. destruct p as [|p]; [exact Eo|].
      apply (Hout p). lia.
Qed.

Lemma ahoy_line_None (line : string) :
  ahoy_line line = Ok None <-> existsb has_brace (re_split line) = true.
Proof.
  unfold ahoy_line. destruct (existsb has_brace (re_split line)).
  - split; reflexivity.
  - split; [|discriminate].
    destruct (lookup_codes (re_findall line)) as [cs|e]; [|discriminate].
    cbn [bind]. destruct cs as [|c cs]; cbn [bind]; [discriminate|].
    destruct (weave _ _); discriminate.
Qed.

Lemma ahoy_loop_LooseBrace (lines_list : list string) :
  forall acc line,
    ahoy_loop lines_list acc = Ok (LooseBrace line) ->
    exists before after,
      lines_list = before ++ line :: after
      /\ stray_brace line
      /\ Forall (fun l => ~ stray_brace l) before.
Proof.
  induction lines_list as [|l ls IH]; intros acc line H; [discriminate|].
  cbn [ahoy_loop] in H.
  destruct (ahoy_line l) as [[new_line|]|e] eqn:El; cbn [bind] in H;
    [| |discriminate].
  - destruct (IH _ _ H) as (before & after & -> & Hs & Hb).
    exists (l :: before), after. split; [reflexivity|]. split; [exact Hs|].
    constructor; [|exact Hb]. intros Hl.
    apply stray_brace_found, ahoy_line_None in Hl. congruence.
  - injection H as <-. exists [], ls. split; [reflexivity|].
    split; [|constructor]. now apply loose_is_stray, ahoy_line_None.
Qed.

Lemma ahoy_loop_NewLines (lines_list : list string) :
  forall acc new_lines,
    ahoy_loop lines_list acc = Ok (NewLines new_lines) ->
    Forall (fun l => ~ stray_brace l) lines_list
    /\ List.length new_lines = (List.length acc + List.length lines_list)%nat.
Proof.
  induction lines_list as [|l ls IH]; intros acc new_lines H.
  - injection H as <-. split; [constructor | simpl; lia].
  - cbn [ahoy_loop] in H.
    destruct (ahoy_line l) as [[new_line|]|e] eqn:El; cbn [bind] in H;
      [|discriminate|discriminate].
    destruct (IH _ _ H) as [Hall Hlen]. split.
    + constructor; [|exact Hall]. intros Hl.
      apply stray_brace_found, ahoy_line_None in Hl. congruence.
    + rewrite Hlen, length_app. simpl. lia.
Qed.

End FormatError.

(** The loose-brace check reports a line exactly when the line holds a
    brace outside every match of the placeholder pattern: a '{' not
    followed by two word characters and '}', or a '}' not closing such a
    group. *)
Theorem format_error_iff_stray_brace (line : string) :
  ahoy_line line = Ok None <-> stray_brace line.
Proof.
  rewrite ahoy_line_None. split.
  - apply loose_is_stray.
  - apply stray_brace_found.
Qed.

(** When [ahoy_lines_list] returns the format error, the line it names
    is a line of the input, it holds a stray brace, and no line before
    it does. *)
Theorem format_error_names_first_stray (lines_list : list string)
  (line : string) :
  ahoy_lines_list lines_list = Ok (LooseBrace line) ->
  exists before after,
    lines_list = before ++ line :: after
    /\ stray_brace line
    /\ Forall (fun l => ~ stray_brace l) before.
Proof. apply ahoy_loop_LooseBrace. Qed.

Lemma format_error_names_first_stray_witness :
  exists before after,
    ["10 print {sc}"; "20 print {chr$(5)"; "30 }"]
    = before ++ "20 print {chr$(5)" :: after
    /\ stray_brace "20 print {chr$(5)"
    /\ Forall (fun l => ~ stray_brace l) before.
Proof.
  apply (format_error_names_first_stray
           ["10 print {sc}"; "20 print {chr$(5)"; "30 }"]).
  reflexivity.
Defined.

(** When [ahoy_lines_list] returns normalized lines, no input line holds
    a stray brace, and there is one normalized line for each input
    line. *)
Theorem normalized_lines_count (lines_list new_lines : list string) :
  ahoy_lines_list lines_list = Ok (NewLines new_lines) ->
  Forall (fun l => ~ stray_brace l) lines_list
  /\ List.length new_lines = List.length lines_list.
Proof.
  intros H. apply ahoy_loop_NewLines in H. exact H.
Qed.

Lemma normalized_lines_count_witness :
  Forall (fun l => ~ stray_brace l) ["10 print {sc}{cd}hi"; "20 end"]
  /\ List.length ["10 print {clr}{down}hi"; "20 end"]
     = List.length ["10 print {sc}{cd}hi"; "20 end"].
Proof.
  apply (normalized_lines_count ["10 print {sc}{cd}hi"; "20 end"]
           ["10 print {clr}{down}hi"; "20 end"]).
  reflexivity.
Defined.

(** Lines without any brace pass through the ahoy normalizer
    unchanged. *)
Theorem brace_free_lines_unchanged (lines_list : list string) :
  Forall (fun l => has_brace l = false) lines_list ->
  ahoy_lines_list lines_list = Ok (NewLines lines_list).
Proof.
  intros H. unfold ahoy_lines_list.
  rewrite (ahoy_loop_normal_form lines_list lines_list); [reflexivity|].
  induction H as [|l ls Hl _ IH]; constructor; [|exact IH].
  now apply nf_text.
Qed.

Lemma brace_free_lines_unchanged_witness :
  ahoy_lines_list ["10 print chr$(147)"; "20 goto 10"]
  = Ok (NewLines ["10 print chr$(147)"; "20 goto 10"]).
Proof.
  apply (brace_free_lines_unchanged ["10 print chr$(147)"; "20 goto 10"]).
  repeat constructor.
Defined.

(** ** Placeholders missing from the table *)

Section MissingKey.

Lemma dict_get_raises (d : list (string * string)) (key : list Z) (e : exn) :
  dict_get d key = Raise e -> e = KeyError.
Proof.
  induction d as [|[k v] d IH]; simpl; [congruence|].
  destruct (list_eq_dec _ _ _); [discriminate | exact IH].
Qed.

Lemma lookup_codes_unknown (items : list string) (item : string) :
  In item items ->
  dict_get AHOY_TO_PETCAT (upper item) = Raise KeyError ->
  lookup_codes items = Raise KeyError.
Proof.
  intros Hin Hitem. induction items as [|i items IH]; [contradiction|].
  cbn [lookup_codes].
  destruct (dict_get AHOY_TO_PETCAT (upper i)) as [c|e] eqn:Ei.
  - cbn [bind]. destruct Hin as [->|Hin]; [congruence|].
    now rewrite (IH Hin).
  - cbn [bind]. now rewrite (dict_get_raises _ _ _ Ei).
Qed.

(** A match of the pattern anywhere in a line is among the matches the
    leftmost scan collects: matches do not overlap. *)
Lemma findall_occurrence (a b : ascii) (rest : string) :
  isword a = true -> isword b = true ->
  forall pre, In (code a b) (re_findall (pre +++ code a b +++ rest)).
Proof.
  intros Ha Hb pre.
  remember (String.length pre) as n eqn:Hn. revert pre Hn.
  induction n as [n IH] using lt_wf_ind. intros pre Hn.
  destruct pre as [|c0 pre].
  - cbn [String.append]. rewrite re_findall_code by assumption. now left.
  - change (String c0 pre +++ code a b +++ rest)
      with (String c0 (pre +++ code a b +++ rest)).
    rewrite re_findall_cons.
    destruct (opens_code _) eqn:Eo.
    + right.
      apply opens_code_inv in Eo as (a' & b' & rest' & Hl & _ & Ha' & Hb').
      destruct pre as [|x [|y [|z pre]]].
      * injection Hl as <- _. discriminate Ha'.
      * injection Hl as _ <- _. discriminate Hb'.
      * injection Hl as _ _ Hc _. discriminate Hc.
      * cbn [String.append drop].
        apply (IH (String.length pre)); [|reflexivity].
        subst n. cbn [String.length]. lia.
    + apply (IH (String.length pre)); [|reflexivity].
      subst n. cbn [String.length]. lia.
Qed.

End MissingKey.

(** A line without a stray brace that holds, anywhere, a placeholder
    matching the pattern but missing from the ahoy table makes
    [ahoy_lines_list] raise KeyError, when the lines before it are
    well formed; no list of lines and no format error is returned. *)
Theorem unknown_placeholder_key_error (before : list string)
  (pre : string) (a b : ascii) (rest : string) (after : list string) :
  Forall (fun l => exists o, normal_form l o) before ->
  isword a = true -> isword b = true ->
  dict_get AHOY_TO_PETCAT (upper (code a b)) = Raise KeyError ->
  ~ stray_brace (pre +++ code a b +++ rest) ->
  ahoy_lines_list (before ++ (pre +++ code a b +++ rest) :: after)
  = Raise KeyError.
Proof.
  intros Hbefore Ha Hb Hget Hns. unfold ahoy_lines_list. generalize (@nil string).
  induction Hbefore as [|l ls [o Hlo] _ IH]; intros acc.
  - cbn [app ahoy_loop]. unfold ahoy_line.
    destruct (existsb has_brace (re_split (pre +++ code a b +++ rest))) eqn:E.
    + elim Hns. now apply loose_is_stray.
    + rewrite (lookup_codes_unknown _ (code a b)); [reflexivity| |exact Hget].
      now apply findall_occurrence.
  - cbn [app ahoy_loop]. rewrite (ahoy_line_normal_form _ _ Hlo). cbn [bind].
    apply IH.
Qed.

Lemma unknown_placeholder_key_error_witness :
  ahoy_lines_list (["10 {sc}"] ++ ("20 print {wh}" +++ code "z" "z" +++ "!")
                   :: ["30 {"])
  = Raise KeyError.
Proof.
  apply (unknown_placeholder_key_error ["10 {sc}"] "20 print {wh}" "z" "z" "!"
           ["30 {"]); try reflexivity.
  - constructor; [|constructor]. exists "10 {clr}". exact normal_form_10_sc.
  - intros Hs. apply stray_brace_found in Hs. discriminate Hs.
Defined.

(** ** An empty source *)

Lemma read_file_blank (lines : list string) :
  Forall (fun l => strip l = EmptyString) lines -> read_file lines = [].
Proof.
  induction 1 as [|l ls Hl _ IH]; [reflexivity|].
  cbn [read_file]. now rewrite Hl.
Qed.

(** With the ahoy source format, a file of blank lines only (or of no
    line at all) ends [main] in an uncaught IndexError, raised by
    [lines_list[0]] on the empty list of normalized lines; no file is
    written. *)
Theorem blank_ahoy_source_index_error (TOKENS : option table) (a : args)
  (io : console) (lines : list string) :
  parse_args a = true ->
  source a = "ahoy" ->
  file_in a = Some lines ->
  Forall (fun l => strip l = EmptyString) lines ->
  main TOKENS a io = Run (Uncaught IndexError) None None.
Proof.
  intros Hargs Hsrc Hfile Hblank.
  unfold main. rewrite Hargs, Hfile, (read_file_blank _ Hblank), Hsrc.
  reflexivity.
Qed.

Lemma blank_ahoy_source_index_error_witness :
  main fresh_interpreter blank_ahoy_args fresh_disk
  = Run (Uncaught IndexError) None None.
Proof.
  apply (blank_ahoy_source_index_error fresh_interpreter blank_ahoy_args
           fresh_disk
           [" "; EmptyString]); try reflexivity.
  repeat constructor.
Defined.

(** ** The layout of the program image *)

Section Layout.

Variable TOKENS : option table.
Variable load : Z.

Lemma to_bytes_2_intro (n : Z) :
  0 <= n <= 65535 -> to_bytes n 2 = Ok (le_bytes 2 n).
Proof.
  intros H. unfold to_bytes. change (256 ^ Z.of_nat 2) with 65536.
  replace (n <? 0) with false by (symmetry; apply Z.ltb_ge; lia).
  replace (65536 <=? n) with false by (symmetry; apply Z.leb_gt; lia).
  reflexivity.
Qed.

Lemma to_bytes_2_inv (n : Z) (bs : list Z) :
  to_bytes n 2 = Ok bs -> 0 <= n <= 65535 /\ bs = le_bytes 2 n.
Proof.
  intros H. destruct (to_bytes_2_ok _ _ H) as [Hr ->].
  split; [exact Hr|]. cbn [le_bytes]. reflexivity.
Qed.

Lemma assemble_lines_layout (lines_list : list string) :
  forall (addr : Z) (out_list : list (list Z)),
    load <= addr ->
    assemble_lines TOKENS load addr lines_list = Ok out_list ->
    exists parsed,
      Forall2 (fun line p => parse_line TOKENS line = Ok p) lines_list parsed
      /\ fits_from load addr parsed
      /\ List.concat out_list = header_of load addr parsed ++ frames addr parsed.
Proof.
  induction lines_list as [|line rest IH]; intros addr out_list Hle H.
  - injection H as <-. exists []. split; [constructor|]. split; [exact I|].
    unfold header_of. now destruct (addr =? load).
  - cbn [assemble_lines] in H.
    bind_ok H. destruct a as [line_num line_txt].
    bind_ok H. rename a into header.
    bind_ok H. rename a into byte_list.
    bind_ok H. rename a into link.
    bind_ok H. rename a into number.
    bind_ok H. rename a into out_list'.
    injection H as <-.
    set (next := addr + Z.of_nat (List.length byte_list) + 4) in *.
    apply to_bytes_2_inv in E2 as [Hlink ->].
    apply to_bytes_2_inv in E3 as [Hnum ->].
    assert (Hlt : load < next) by (unfold next; lia).
    destruct (IH next out_list' (Z.lt_le_incl _ _ Hlt) E4)
      as (parsed & HF & Hfit & Hcat).
    exists ((line_num, byte_list) :: parsed). split; [|split].
    + constructor; [|exact HF]. unfold parse_line. rewrite E. cbn [bind].
      now rewrite E1.
    + cbn [fits_from]. fold next. repeat split; try lia; try exact Hfit.
      intros ->. rewrite Z.eqb_refl in E0. bind_ok E0.
      apply to_bytes_2_inv in E2 as [Hl _]. lia.
    + cbn [List.concat frames]. fold next. rewrite Hcat.
      unfold header_of at 1.
      replace (next =? load) with false by (symmetry; apply Z.eqb_neq; lia).
      cbn [app]. rewrite concat_app. cbn [List.concat]. rewrite app_nil_r.
      unfold frame, header_of. rewrite <- !app_assoc. f_equal.
      destruct (addr =? load) eqn:Ea.
      * apply Z.eqb_eq in Ea. subst addr. bind_ok E0.
        apply to_bytes_2_inv in E2 as [_ ->]. injection E0 as <-.
        cbn [List.concat]. now rewrite app_nil_r.
      * injection E0 as <-. reflexivity.
Qed.

Lemma assemble_lines_complete (lines_list : list string)
  (parsed : list (Z * list Z)) :
  Forall2 (fun line p => parse_line TOKENS line = Ok p) lines_list parsed ->
  forall addr,
    load <= addr ->
    fits_from load addr parsed ->
    exists out_list,
      assemble_lines TOKENS load addr lines_list = Ok out_list
      /\ List.concat out_list = header_of load addr parsed ++ frames addr parsed.
Proof.
  induction 1 as [|line [line_num byte_list] rest parsed Hp _ IH];
    intros addr Hle Hfit.
  - exists []. split; [reflexivity|]. unfold header_of.
    now destruct (addr =? load).
  - cbn [fits_from] in Hfit.
    set (next := addr + Z.of_nat (List.length byte_list) + 4) in *.
    destruct Hfit as (Hload & Hnext & Hnum & Hfit).
    destruct (IH next ltac:(unfold next; lia) Hfit) as (out_list' & Hasm & Hcat).
    unfold parse_line in Hp.
    destruct (split_line_num line) as [[n txt]|e] eqn:Es; [|discriminate].
    cbn [bind] in Hp.
    destruct (scan_manager TOKENS txt) as [bs|e] eqn:Em; [|discriminate].
    injection Hp as -> ->.
    exists ((header_of load addr ((line_num, byte_list) :: parsed)
             ++ frame next line_num byte_list) :: out_list').
    split.
    + cbn [assemble_lines]. rewrite Es. cbn [bind].
      assert (Hh : (if addr =? load
                    then b <- to_bytes addr 2 ;; Ok [b]
                    else Ok [])
                   = Ok (if addr =? load then [le_bytes 2 load] else [])).
      { destruct (addr =? load) eqn:Ea; [|reflexivity].
        apply Z.eqb_eq in Ea. subst addr.
        rewrite to_bytes_2_intro by (unfold next in Hnext; lia).
        reflexivity. }
      rewrite Hh. cbn [bind]. rewrite Em. cbn [bind]. fold next.
      rewrite (to_bytes_2_intro next Hnext), (to_bytes_2_intro line_num Hnum).
      cbn [bind]. rewrite Hasm. cbn [bind]. do 2 f_equal.
      rewrite concat_app. cbn [List.concat]. rewrite app_nil_r.
      unfold header_of, frame. destruct (addr =? load); cbn [List.concat];
        now rewrite ?app_nil_r.
    + cbn [List.concat frames]. fold next. rewrite Hcat.
      unfold header_of at 2.
      replace (next =? load) with false
        by (symmetry; apply Z.eqb_neq; unfold next; lia).
      cbn [app]. now rewrite <- app_assoc.
Qed.

Lemma fits_from_bound (parsed : list (Z * list Z)) :
  forall addr,
    0 <= addr ->
    (fits_from load addr parsed
     <-> (parsed = []
          \/ ((addr = load -> 0 <= load)
              /\ addr + Z.of_nat (frames_size (map snd parsed)) <= 65535
              /\ Forall (fun p => 0 <= fst p <= 65535) parsed))).
Proof.
  induction parsed as [|[n bs] parsed IH]; intros addr Ha.
  - split; [now left | intros _; exact I].
  - cbn [fits_from map snd frames_size].
    set (next := addr + Z.of_nat (List.length bs) + 4).
    assert (Hn : 0 <= next) by (unfold next; lia).
    specialize (IH next Hn). split.
    + intros (Hl & Hnext & Hnum & Hfit). right.
      apply IH in Hfit as [->|(_ & Hb & Hall)].
      * split; [exact Hl|]. split; [simpl; unfold next in Hnext; lia|].
        now repeat constructor.
      * split; [exact Hl|]. split; [unfold next in Hb; lia|].
        now constructor.
    + intros [H|(Hl & Hb & Hall)]; [discriminate|].
      inversion Hall as [|? ? Hnum Hall']; subst. cbn [fst] in Hnum.
      split; [exact Hl|]. split; [unfold next; lia|]. split; [exact Hnum|].
      apply IH. destruct parsed as [|p parsed]; [now left|]. right.
      split; [unfold next; lia|]. split; [unfold next; lia|]. exact Hall'.
Qed.

End Layout.

(** The assembly loop of [main] succeeds exactly when every line parses
    (its number is read and its text is lexed) and the program fits the
    16-bit fields; the stream it returns is then the program image: the
    load address, for each line its link (the address behind its frame),
    its line number and its tokenized bytes, and the end marker 0, 0. *)
Theorem assemble_iff_image (TOKENS : option table) (load : Z)
  (lines_list : list string) (out : list Z) :
  assemble TOKENS load lines_list = Ok out
  <-> exists parsed,
        Forall2 (fun line p => parse_line TOKENS line = Ok p)
                lines_list parsed
        /\ fits load parsed
        /\ out = image load parsed.
Proof.
  unfold assemble. split.
  - intros H. bind_ok H. injection H as <-.
    destruct (assemble_lines_layout TOKENS load lines_list load a
                (Z.le_refl _) E) as (parsed & HF & Hfit & Hcat).
    exists parsed. split; [exact HF|].
    rewrite concat_app, Hcat. cbn [List.concat]. rewrite app_nil_r.
    unfold header_of, image, fits. rewrite Z.eqb_refl.
    destruct parsed as [|p parsed]; [split; [now left | reflexivity]|].
    split; [|now rewrite <- app_assoc].
    assert (H0 : 0 <= load)
      by (destruct p; cbn [fits_from] in Hfit; now apply Hfit).
    apply (fits_from_bound load _ load H0) in Hfit as [Hfit|Hfit];
      [discriminate|].
    right. tauto.
  - intros (parsed & HF & Hfit & ->).
    assert (Hfrom : fits_from load load parsed).
    { destruct Hfit as [->|(H0 & Hb & Hall)]; [exact I|].
      apply (fits_from_bound load _ load H0). right. tauto. }
    destruct (assemble_lines_complete TOKENS load lines_list parsed HF load
                (Z.le_refl _) Hfrom) as (out_list & Hasm & Hcat).
    rewrite Hasm. cbn [bind]. f_equal.
    rewrite concat_app, Hcat. cbn [List.concat]. rewrite app_nil_r.
    unfold header_of, image. rewrite Z.eqb_refl.
    destruct parsed; [reflexivity | now rewrite <- app_assoc].
Qed.

Example assemble_image_example :
  assemble (Some CORE_TOKENS) 2049 [print_hi; "20 goto 10"]
  = Ok (image 2049 [(10, [153; 32; 34; 72; 73; 34; 0]);
                    (20, [137; 32; 49; 48; 0])]).
Proof. reflexivity. Qed.

(** ** Writing the binary file *)

Section Octets.

Variable TOKENS : option table.
Hypothesis TOKENS_ok : tokens_ok TOKENS.
Hypothesis TOKENS_values : values_ok TOKENS.

Lemma scan_octet (ln : string) (tokenize : bool) (v : Z) (rest : string) :
  scan TOKENS ln tokenize = Ok (v, rest) -> petscii_byte v = true.
Proof.
  unfold scan.
  assert (Hlit : scan_char ln = Ok (v, rest) -> petscii_byte v = true).
  { destruct ln as [|c ln]; [discriminate|]. rewrite scan_char_folded.
    intros [= <- _]. apply folded_char_petscii. }
  destruct (first_match PETCAT_TOKENS ln) as [[v' r']|] eqn:Ep.
  - intros [= -> ->]. destruct (first_match_In _ _ _ _ Ep) as (t & Hin & _).
    exact (petscii_values_In _ _ _ PETCAT_petscii Hin).
  - destruct tokenize; [|exact Hlit].
    destruct TOKENS as [tokens|]; [|discriminate].
    destruct (first_match tokens ln) as [[v' r']|] eqn:Et; [|exact Hlit].
    intros [= -> ->]. destruct (first_match_In _ _ _ _ Et) as (t & Hin & _).
    exact (petscii_values_In _ _ _ TOKENS_values Hin).
Qed.

Lemma scan_from_octets (ln : string) (st st' : lexer) :
  scan_from TOKENS ln st = Ok st' ->
  Forall (fun b => petscii_byte b = true) (bytes st) ->
  Forall (fun b => petscii_byte b = true) (bytes st').
Proof.
  revert st'.
  apply (scan_from_ind TOKENS TOKENS_ok (fun ln st r =>
    forall st', r = Ok st' ->
    Forall (fun b => petscii_byte b = true) (bytes st) ->
    Forall (fun b => petscii_byte b = true) (bytes st'))).
  - now intros s st' [= <-].
  - discriminate.
  - intros c l s b l' Hs IH st' Hr Hall. apply (IH _ Hr).
    unfold record_byte. cbn [bytes]. apply Forall_app. split; [exact Hall|].
    constructor; [|constructor]. exact (scan_octet _ _ _ _ Hs).
Qed.

Lemma petscii_byte_octet (b : Z) : petscii_byte b = true -> 0 <= b <= 255.
Proof.
  unfold petscii_byte, in_range. intros H.
  apply andb_true_iff in H as [H _]. apply andb_true_iff in H as [H0 H1].
  apply Z.leb_le in H0, H1. lia.
Qed.

Lemma parse_line_octets (line : string) (n : Z) (bs : list Z) :
  parse_line TOKENS line = Ok (n, bs) ->
  Forall (fun b => 0 <= b <= 255) bs.
Proof.
  unfold parse_line. intros H.
  destruct (split_line_num line) as [[m txt]|e]; [|discriminate].
  cbn [bind] in H. unfold scan_manager, scan_state in H.
  fold (scan_from TOKENS txt (Lexer false false [])) in H.
  destruct (scan_from TOKENS txt (Lexer false false [])) as [st|e] eqn:Es;
    [|discriminate].
  cbn [bind] in H. injection H as _ <-.
  apply Forall_app. split; [|constructor; [lia|constructor]].
  eapply Forall_impl; [exact petscii_byte_octet|].
  apply (scan_from_octets _ _ _ Es). constructor.
Qed.

Lemma le_bytes_2_octets (n : Z) : Forall (fun b => 0 <= b <= 255) (le_bytes 2 n).
Proof.
  cbn [le_bytes].
  pose proof (Z.mod_pos_bound n 256 ltac:(lia)).
  pose proof (Z.mod_pos_bound (n / 256) 256 ltac:(lia)).
  repeat constructor; lia.
Qed.

Lemma frames_octets (lines_list : list string) (parsed : list (Z * list Z)) :
  Forall2 (fun line p => parse_line TOKENS line = Ok p) lines_list parsed ->
  forall addr, Forall (fun b => 0 <= b <= 255) (frames addr parsed).
Proof.
  induction 1 as [|line [n bs] rest parsed Hp _ IH]; intros addr;
    [constructor|].
  cbn [frames]. unfold frame. rewrite !Forall_app.
  repeat split; try apply le_bytes_2_octets; [|apply IH].
  exact (parse_line_octets _ _ _ Hp).
Qed.

Lemma image_octets (load : Z) (lines_list : list string)
  (parsed : list (Z * list Z)) :
  Forall2 (fun line p => parse_line TOKENS line = Ok p) lines_list parsed ->
  Forall (fun b => 0 <= b <= 255) (image load parsed).
Proof.
  intros HF. unfold image.
  assert (Hend : Forall (fun b => 0 <= b <= 255) [0; 0])
    by (repeat constructor; lia).
  destruct parsed as [|p parsed]; [exact Hend|].
  rewrite !Forall_app. split; [apply le_bytes_2_octets|].
  split; [exact (frames_octets _ _ HF load) | exact Hend].
Qed.

End Octets.

Lemma to_bytes_1 (b : Z) : 0 <= b <= 255 -> to_bytes b 1 = Ok [b].
Proof.
  intros H. unfold to_bytes. change (256 ^ Z.of_nat 1) with 256.
  replace (b <? 0) with false by (symmetry; apply Z.ltb_ge; lia).
  replace (256 <=? b) with false by (symmetry; apply Z.leb_gt; lia).
  cbn [orb le_bytes]. now rewrite Z.mod_small by lia.
Qed.

Lemma to_bytes_1_overflow (b : Z) :
  ~ 0 <= b <= 255 -> to_bytes b 1 = Raise OverflowError.
Proof.
  intros H. unfold to_bytes. change (256 ^ Z.of_nat 1) with 256.
  destruct (b <? 0) eqn:E1; [reflexivity|].
  destruct (256 <=? b) eqn:E2; [reflexivity|].
  apply Z.ltb_ge in E1. apply Z.leb_gt in E2. lia.
Qed.

Lemma write_binary_stops (good : list Z) :
  Forall (fun b => 0 <= b <= 255) good ->
  write_binary good = (good, Ok tt)
  /\ forall bad rest,
       ~ 0 <= bad <= 255 ->
       write_binary (good ++ bad :: rest) = (good, Raise OverflowError).
Proof.
  induction 1 as [|b good Hb _ [IH1 IH2]].
  - split; [reflexivity|]. intros bad rest Hbad.
    cbn [app write_binary]. now rewrite to_bytes_1_overflow.
  - split.
    + cbn [write_binary]. rewrite (to_bytes_1 b Hb), IH1. reflexivity.
    + intros bad rest Hbad. cbn [app write_binary].
      rewrite (to_bytes_1 b Hb), (IH2 bad rest Hbad). reflexivity.
Qed.

(** [write_binary] writes a list of octets as it is; at the first value
    that is not an octet it raises OverflowError, leaving in the file the
    values before it. *)
Theorem write_binary_octets (good : list Z) :
  Forall (fun b => 0 <= b <= 255) good ->
  write_binary good = (good, Ok tt)
  /\ forall bad rest,
       ~ 0 <= bad <= 255 ->
       write_binary (good ++ bad :: rest) = (good, Raise OverflowError).
Proof. apply write_binary_stops. Qed.

Lemma write_binary_octets_witness :
  write_binary [1; 8; 0; 0] = ([1; 8; 0; 0], Ok tt)
  /\ forall bad rest,
       ~ 0 <= bad <= 255 ->
       write_binary ([1; 8; 0; 0] ++ bad :: rest)
       = ([1; 8; 0; 0], Raise OverflowError).
Proof. apply (write_binary_octets [1; 8; 0; 0]). repeat constructor; lia. Defined.

(** ** Runs that write the binary file *)

Section Runs.

Lemma configure_tokens_ok (TOKENS : option table) (v : string) :
  module_binding TOKENS ->
  tokens_ok (configure_tokens TOKENS v)
  /\ values_ok (configure_tokens TOKENS v).
Proof.
  assert (Hcore : tokens_ok (Some CORE_TOKENS) /\ values_ok (Some CORE_TOKENS))
    by (split; [exact CORE_nonempty | exact CORE_petscii]).
  intros Hb. unfold configure_tokens.
  destruct (v =? "2")%string; [exact Hcore|].
  destruct Hb as [->| ->]; [split; exact I | exact Hcore].
Qed.

Lemma assemble_octets (TOKENS : option table) (v : string) (load : Z)
  (lines_list : list string) (out : list Z) :
  module_binding TOKENS ->
  assemble (configure_tokens TOKENS v) load lines_list = Ok out ->
  Forall (fun b => 0 <= b <= 255) out.
Proof.
  intros Hb H. unfold assemble in H. bind_ok H. injection H as <-.
  destruct (configure_tokens_ok TOKENS v Hb) as [Hok Hval].
  destruct (assemble_lines_layout _ load lines_list load a (Z.le_refl _) E)
    as (parsed & HF & _ & Hcat).
  rewrite concat_app, Hcat. cbn [List.concat]. rewrite app_nil_r.
  rewrite !Forall_app. split; [split|].
  - unfold header_of. destruct (load =? load); [|constructor].
    destruct parsed; [constructor | apply le_bytes_2_octets].
  - exact (frames_octets _ Hok Hval _ _ HF load).
  - repeat constructor; lia.
Qed.

End Runs.

(** For a source all of whose characters lie in U+0000..U+00FF (the
    texts of this model; a character above U+00FF is emitted as a value
    that [write_binary] refuses): when [TOKENS] is unbound or bound to
    [CORE_TOKENS] on entry, both output files may be written and the
    assembled stream is longer than 561 bytes, [main] returns normally,
    having written the normalized lines to the .bas file and exactly the
    assembled stream to the binary file. *)
Theorem long_program_written (TOKENS : option table) (a : args)
  (io : console) (lines lines_list : list string) (load : Z)
  (out_list : list Z) :
  module_binding TOKENS ->
  parse_args a = true ->
  file_in a = Some lines ->
  petcat_lines (source a) (read_file lines) = inr lines_list ->
  confirmed (bas_isfile io) (bas_answer io) = true ->
  loadaddr a = Ok load ->
  assemble (configure_tokens TOKENS (version a)) load lines_list
  = Ok out_list ->
  (561 < List.length out_list)%nat ->
  confirmed (prg_isfile io) (prg_answer io) = true ->
  main TOKENS a io = Run Returned (Some lines_list) (Some out_list).
Proof.
  intros Hmod Hargs Hfile Hpet Hbas Hload Hasm Hlen Hprg.
  unfold main. rewrite Hargs, Hfile, Hpet, Hbas. cbn [negb].
  unfold tokenize_and_write. rewrite Hload. cbn [bind]. rewrite Hasm.
  destruct (nth_error out_list 561) eqn:En.
  - rewrite Hprg.
    destruct (write_binary_stops out_list
                (assemble_octets _ _ _ _ _ Hmod Hasm)) as [-> _].
    reflexivity.
  - apply nth_error_None in En. lia.
Qed.

Lemma long_program_written_witness :
  main fresh_interpreter long_args fresh_disk
  = Run Returned (Some (repeat "10 end" 113))
        (Some (image 2049 (repeat (10, [128; 0]) 113))).
Proof.
  apply (long_program_written fresh_interpreter long_args fresh_disk
           (repeat "10 end" 113) (repeat "10 end" 113) 2049
           (image 2049 (repeat (10, [128; 0]) 113)));
    try (vm_compute; reflexivity).
  - left. reflexivity.
  - vm_compute. lia.
Defined.

(** For a source all of whose characters lie in U+0000..U+00FF (the
    texts of this model; with a character above U+00FF [write_binary]
    stops half-way), and [TOKENS] unbound or bound to [CORE_TOKENS] on
    entry: whenever a run of [main] writes the binary file, the run
    returns normally, the file holds a complete assembled stream of more
    than 561 bytes, every value of it an octet, and the .bas file holds
    the lines that were assembled; no partial binary file is left
    behind. *)
Theorem binary_only_on_return (TOKENS : option table) (a : args)
  (io : console) (written : list Z) :
  module_binding TOKENS ->
  prg_file (main TOKENS a io) = Some written ->
  exit (main TOKENS a io) = Returned
  /\ (561 < List.length written)%nat
  /\ Forall (fun b => 0 <= b <= 255) written
  /\ exists load lines_list,
       loadaddr a = Ok load
       /\ bas_file (main TOKENS a io) = Some lines_list
       /\ assemble (configure_tokens TOKENS (version a)) load lines_list
          = Ok written.
Proof.
  intros Hmod. unfold main.
  destruct (parse_args a); cbn [negb]; [|discriminate].
  destruct (file_in a) as [lines|]; [|discriminate].
  destruct (petcat_lines (source a) (read_file lines)) as [st|lines_list];
    [discriminate|].
  destruct (confirmed (bas_isfile io) (bas_answer io)); [|discriminate].
  unfold tokenize_and_write.
  destruct (loadaddr a) as [load|e]; cbn [bind]; [|discriminate].
  destruct (assemble (configure_tokens TOKENS (version a)) load lines_list)
    as [out_list|e] eqn:Hasm; [|discriminate].
  destruct (nth_error out_list 561) eqn:En; [|discriminate].
  destruct (confirmed (prg_isfile io) (prg_answer io)); [|discriminate].
  pose proof (assemble_octets _ _ _ _ _ Hmod Hasm) as Hoct.
  destruct (write_binary_stops out_list Hoct) as [-> _].
  cbn [prg_file exit bas_file]. intros [= <-].
  split; [reflexivity|]. split.
  - apply Nat.nle_gt. intros Hle. apply nth_error_None in Hle. congruence.
  - split; [exact Hoct|]. exists load, lines_list. auto.
Qed.

Lemma binary_only_on_return_witness :
  exit (main fresh_interpreter long_args fresh_disk) = Returned
  /\ (561 < List.length long_image)%nat
  /\ Forall (fun b => 0 <= b <= 255) long_image
  /\ exists load lines_list,
       loadaddr long_args = Ok load
       /\ bas_file (main fresh_interpreter long_args fresh_disk)
          = Some lines_list
       /\ assemble (configure_tokens fresh_interpreter (version long_args))
                   load lines_list
          = Ok long_image.
Proof.
  apply (binary_only_on_return fresh_interpreter long_args fresh_disk).
  - left. reflexivity.
  - vm_compute. reflexivity.
Defined.

(** ** Reading the source file *)

Section ReadFile.

Lemma isspace_lower_char (c : ascii) : isspace (lower_char c) = isspace c.
Proof. destruct c as [[|] [|] [|] [|] [|] [|] [|] [|]]; reflexivity. Qed.

Lemma lower_char_idempotent (c : ascii) :
  lower_char (lower_char c) = lower_char c.
Proof. destruct c as [[|] [|] [|] [|] [|] [|] [|] [|]]; reflexivity. Qed.

Lemma lower_idempotent (s : string) : lower (lower s) = lower s.
Proof.
  induction s as [|c s IH]; simpl; [reflexivity|].
  now rewrite lower_char_idempotent, IH.
Qed.

Lemma blank_lower (s : string) : blank (lower s) = blank s.
Proof.
  induction s as [|c s IH]; simpl; [reflexivity|].
  now rewrite isspace_lower_char, IH.
Qed.

Lemma rstrip_blank (s : string) : rstrip s = EmptyString <-> blank s = true.
Proof.
  induction s as [|c s IH]; simpl; [tauto|].
  destruct (rstrip s) as [|d r].
  - destruct (isspace c); simpl.
    + tauto.
    + split; discriminate.
  - split; [discriminate|]. intros H. apply andb_true_iff in H as [_ H].
    apply IH in H. discriminate.
Qed.

Lemma lstrip_blank (s : string) : lstrip s = EmptyString <-> blank s = true.
Proof.
  induction s as [|c s IH]; simpl; [tauto|].
  destruct (isspace c); simpl; [exact IH|]. split; discriminate.
Qed.

Lemma blank_lstrip (s : string) : blank (lstrip s) = blank s.
Proof.
  induction s as [|c s IH]; simpl; [reflexivity|].
  destruct (isspace c) eqn:E; simpl; [exact IH|]. now rewrite E.
Qed.

Lemma strip_blank (s : string) : strip s = EmptyString <-> blank s = true.
Proof. unfold strip. now rewrite rstrip_blank, blank_lstrip. Qed.

Lemma rstrip_lower (s : string) : rstrip (lower s) = lower (rstrip s).
Proof.
  induction s as [|c s IH]; simpl; [reflexivity|].
  rewrite IH. destruct (rstrip s) as [|d r]; simpl.
  - rewrite isspace_lower_char. now destruct (isspace c).
  - reflexivity.
Qed.

Lemma rstrip_idempotent (s : string) : rstrip (rstrip s) = rstrip s.
Proof.
  induction s as [|c s IH]; simpl; [reflexivity|].
  destruct (rstrip s) as [|d r] eqn:E.
  - destruct (isspace c) eqn:Ec; simpl; [reflexivity|]. now rewrite Ec.
  - cbn [rstrip]. cbn [rstrip] in IH. now rewrite IH.
Qed.

Lemma blank_rstrip (s : string) : blank (rstrip s) = blank s.
Proof.
  destruct (blank s) eqn:E.
  - apply rstrip_blank in E. now rewrite E.
  - destruct (blank (rstrip s)) eqn:E'; [|reflexivity].
    apply rstrip_blank in E'. rewrite rstrip_idempotent in E'.
    apply rstrip_blank in E'. congruence.
Qed.

(** A line as [read_file] returns it. *)
Lemma read_line_normalized (line : string) :
  strip line <> EmptyString ->
  let l := lower (rstrip line) in
  strip l <> EmptyString /\ rstrip l = l /\ lower l = l.
Proof.
  intros H l. subst l. split; [|split].
  - rewrite strip_blank, blank_lower, blank_rstrip, <- strip_blank. exact H.
  - now rewrite rstrip_lower, rstrip_idempotent.
  - apply lower_idempotent.
Qed.

Lemma read_file_Forall (lines : list string) :
  Forall (fun l => strip l <> EmptyString /\ rstrip l = l /\ lower l = l)
         (read_file lines).
Proof.
  induction lines as [|line lines IH]; [constructor|].
  cbn [read_file]. destruct (strip line) eqn:E; [exact IH|].
  constructor; [|exact IH]. apply read_line_normalized. congruence.
Qed.

Lemma read_file_fixed (lines : list string) :
  Forall (fun l => strip l <> EmptyString /\ rstrip l = l /\ lower l = l)
         lines ->
  read_file lines = lines.
Proof.
  induction 1 as [|l ls (Hs & Hr & Hl) _ IH]; [reflexivity|].
  cbn [read_file]. destruct (strip l); [congruence|].
  now rewrite Hr, Hl, IH.
Qed.

End ReadFile.

(** Every line [read_file] returns holds a character that is not
    whitespace, has no trailing whitespace, and is in lower case: blank
    lines are dropped and the others stripped on the right and
    lowered. *)
Theorem read_file_normalized (lines : list string) :
  Forall (fun l => blank l = false /\ rstrip l = l /\ lower l = l)
         (read_file lines).
Proof.
  eapply Forall_impl; [|apply read_file_Forall].
  intros l (Hs & Hr & Hl). split; [|auto].
  destruct (blank l) eqn:E; [|reflexivity].
  apply strip_blank in E. congruence.
Qed.

(** Reading is idempotent: lines that [read_file] returned are returned
    unchanged when read again. *)
Theorem read_file_idempotent (lines : list string) :
  read_file (read_file lines) = read_file lines.
Proof. apply read_file_fixed, read_file_Forall. Qed.

Example read_file_example :
  read_file ["10 PRINT {SC}  "; "   "; EmptyString; "  20 End"]
  = ["10 print {sc}"; "  20 end"].
Proof. reflexivity. Qed.

(** ** Line numbers in decimal *)

Section Decimal.

Lemma ord_chr (n : Z) : 0 <= n <= 255 -> ord (chr n) = n.
Proof.
  intros H. unfold ord, chr. rewrite N_ascii_embedding by lia. lia.
Qed.

Lemma ord_digit_char (d : Z) : 0 <= d <= 9 -> ord (digit_char d) = 48 + d.
Proof. intros H. unfold digit_char. apply ord_chr. lia. Qed.

Lemma digit_char_decimal (d : Z) :
  0 <= d <= 9 -> in_range 48 57 (ord (digit_char d)) = true.
Proof.
  intros H. rewrite ord_digit_char by exact H. unfold in_range.
  apply andb_true_iff. split; apply Z.leb_le; lia.
Qed.

Lemma isdigit_digit_char (d : Z) : 0 <= d <= 9 -> isdigit (digit_char d) = true.
Proof.
  intros H. unfold isdigit. now rewrite digit_char_decimal.
Qed.

Lemma isspace_digit_char (d : Z) : 0 <= d <= 9 -> isspace (digit_char d) = false.
Proof.
  intros H. unfold isspace, in_range. rewrite ord_digit_char by exact H.
  repeat (apply orb_false_iff; split);
    try (apply andb_false_iff; left; apply Z.leb_gt; lia);
    try (apply andb_false_iff; right; apply Z.leb_gt; lia);
    apply Z.eqb_neq; lia.
Qed.

Lemma lstrip_blank_prefix (ws s : string) :
  blank ws = true -> lstrip (ws +++ s) = lstrip s.
Proof.
  induction ws as [|c ws IH]; simpl; [reflexivity|].
  intros H. apply andb_true_iff in H as [Hc H]. rewrite Hc. now apply IH.
Qed.

Lemma take_digits_digit_string (ds : list Z) (rest : string) :
  Forall (fun d => 0 <= d <= 9) ds ->
  starts_with_digit rest = false ->
  take_digits (digit_string ds +++ rest) = (digit_string ds, rest).
Proof.
  intros Hds Hrest. induction Hds as [|d ds Hd _ IH].
  - destruct rest as [|c rest]; [reflexivity|].
    cbn [digit_string String.append take_digits].
    cbn [starts_with_digit] in Hrest. now rewrite Hrest.
  - cbn [digit_string String.append take_digits].
    now rewrite (isdigit_digit_char d Hd), IH.
Qed.

Lemma decimal_digit_string (ds : list Z) :
  Forall (fun d => 0 <= d <= 9) ds ->
  forall acc,
    decimal (digit_string ds) acc
    = Some (fold_left (fun acc d => 10 * acc + d) ds acc).
Proof.
  induction 1 as [|d ds Hd _ IH]; intros acc; [reflexivity|].
  cbn [digit_string decimal fold_left].
  rewrite (digit_char_decimal d Hd), (ord_digit_char d Hd), IH.
  do 2 f_equal. lia.
Qed.

Lemma length_digit_string (ds : list Z) :
  String.length (digit_string ds) = List.length ds.
Proof. induction ds as [|d ds IH]; simpl; [reflexivity | now rewrite IH]. Qed.

End Decimal.

(** A line that begins, after any whitespace, with a line number written
    with at most 4300 decimal digits, followed by text that does not
    begin with a digit, is split into the number these digits denote in
    base ten and the text with its leading whitespace removed. *)
Theorem split_line_num_decimal (ws : string) (ds : list Z) (rest : string) :
  blank ws = true ->
  ds <> [] ->
  Forall (fun d => 0 <= d <= 9) ds ->
  (List.length ds <= 4300)%nat ->
  starts_with_digit rest = false ->
  split_line_num (ws +++ digit_string ds +++ rest)
  = Ok (base10 ds, lstrip rest).
Proof.
  intros Hws Hne Hds Hlen Hrest. unfold split_line_num.
  rewrite (lstrip_blank_prefix _ _ Hws).
  destruct ds as [|d ds]; [congruence|].
  inversion Hds as [|? ? Hd Hds']; subst.
  assert (Hl : lstrip (digit_string (d :: ds) +++ rest)
               = digit_string (d :: ds) +++ rest).
  { cbn [digit_string String.append lstrip].
    now rewrite (isspace_digit_char d Hd). }
  rewrite Hl, (take_digits_digit_string _ _ Hds Hrest).
  unfold int_of_digits.
  change (digit_string (d :: ds))
    with (String (digit_char d) (digit_string ds)) at 1.
  cbv iota beta.
  replace (int_max_str_digits <? String.length (digit_string (d :: ds)))%nat
    with false
    by (symmetry; apply Nat.ltb_ge; rewrite length_digit_string;
        unfold int_max_str_digits; exact Hlen).
  rewrite (decimal_digit_string _ Hds). reflexivity.
Qed.

Lemma split_line_num_decimal_witness :
  split_line_num ("  " +++ digit_string [1; 0; 2; 4] +++ "  print 5")
  = Ok (base10 [1; 0; 2; 4], lstrip "  print 5").
Proof.
  apply (split_line_num_decimal "  " [1; 0; 2; 4] "  print 5");
    try reflexivity.
  - discriminate.
  - repeat constructor; lia.
  - simpl. lia.
Defined.

(** ** Versions without a table, again *)

Section Agreement.

Variable tokens : table.
Hypothesis tokens_nonempty : nonempty_tokens tokens.

Lemma scan_unbound_agrees (ln : string) (tokenize : bool) (r : Z * string) :
  scan None ln tokenize = Ok r -> scan (Some tokens) ln tokenize = Ok r.
Proof.
  unfold scan. destruct (first_match PETCAT_TOKENS ln); [tauto|].
  destruct tokenize; [discriminate | tauto].
Qed.

Lemma scan_from_unbound_agrees (ln : string) (st st' : lexer) :
  scan_from None ln st = Ok st' -> scan_from (Some tokens) ln st = Ok st'.
Proof.
  revert st'.
  apply (scan_from_ind None I (fun ln st r =>
    forall st', r = Ok st' -> scan_from (Some tokens) ln st = Ok st')).
  - intros s st' [= <-]. reflexivity.
  - discriminate.
  - intros c l s b l' Hs IH st' Hr.
    rewrite (scan_from_cons (Some tokens) tokens_nonempty).
    rewrite (scan_unbound_agrees _ _ _ Hs). now apply IH.
Qed.

Lemma scan_manager_unbound_agrees (txt : string) (bs : list Z) :
  scan_manager None txt = Ok bs -> scan_manager (Some tokens) txt = Ok bs.
Proof.
  unfold scan_manager, scan_state.
  fold (scan_from None txt (Lexer false false [])).
  fold (scan_from (Some tokens) txt (Lexer false false [])).
  destruct (scan_from None txt (Lexer false false [])) as [st|e] eqn:E;
    [|discriminate].
  now rewrite (scan_from_unbound_agrees _ _ _ E).
Qed.

Lemma assemble_lines_unbound_agrees (load : Z) (lines_list : list string) :
  forall addr out_list,
    assemble_lines None load addr lines_list = Ok out_list ->
    assemble_lines (Some tokens) load addr lines_list = Ok out_list.
Proof.
  induction lines_list as [|line rest IH]; intros addr out_list H;
    [exact H|].
  cbn [assemble_lines] in *.
  bind_ok H. destruct a as [line_num line_txt]. cbn [bind].
  bind_ok H. bind_ok H.
  rewrite (scan_manager_unbound_agrees _ _ E1). cbn [bind].
  bind_ok H. bind_ok H. bind_ok H.
  now rewrite (IH _ _ E4).
Qed.

End Agreement.

(** Whatever version is chosen, a stream that is assembled is the stream
    version 2 assembles from the same lines at the same address: where
    the keyword table is unbound, the lexer gets only through texts in
    which no keyword would have been looked up. *)
Theorem assembled_as_version_2 (TOKENS : option table) (v : string)
  (load : Z) (lines_list : list string) (out : list Z) :
  module_binding TOKENS ->
  assemble (configure_tokens TOKENS v) load lines_list = Ok out ->
  assemble (Some CORE_TOKENS) load lines_list = Ok out.
Proof.
  intros Hmod. unfold configure_tokens.
  destruct (v =? "2")%string; [tauto|].
  destruct Hmod as [->| ->]; [|tauto].
  unfold assemble. intros H. bind_ok H.
  now rewrite (assemble_lines_unbound_agrees CORE_TOKENS CORE_nonempty _ _ _ _ E).
Qed.

Lemma assembled_as_version_2_witness :
  assemble (Some CORE_TOKENS) 4097 ["10 {clr}{home}"; "20"]
  = Ok [1; 16; 8; 16; 10; 0; 147; 19; 0; 13; 16; 20; 0; 0; 0; 0].
Proof.
  apply (assembled_as_version_2 fresh_interpreter "7" 4097
           ["10 {clr}{home}"; "20"]).
  - left. reflexivity.
  - reflexivity.
Defined.

(** ** Lines that do not parse *)

Lemma assemble_parses (TOKENS : option table) (load : Z)
  (lines_list : list string) (out : list Z) (line : string) :
  assemble TOKENS load lines_list = Ok out ->
  In line lines_list ->
  exists p, parse_line TOKENS line = Ok p.
Proof.
  unfold assemble. intros H Hin. bind_ok H.
  destruct (assemble_lines_layout TOKENS load lines_list load a
              (Z.le_refl _) E) as (parsed & HF & _).
  clear - HF Hin. induction HF as [|l p ls ps Hp _ IH]; [contradiction|].
  destruct Hin as [->|Hin]; eauto.
Qed.

Lemma assemble_length (TOKENS : option table) (load : Z)
  (lines_list : list string) (out : list Z) :
  assemble TOKENS load lines_list = Ok out ->
  exists toks,
    Forall2 (fun line byte_list => line_bytes TOKENS line = Ok byte_list)
            lines_list toks
    /\ List.length out
       = match lines_list with
         | [] => 2%nat
         | _ => (4 + frames_size toks)%nat
         end.
Proof.
  unfold assemble. intros H. bind_ok H. injection H as <-.
  destruct (assemble_lines_layout TOKENS load lines_list load a
              (Z.le_refl _) E) as (parsed & HF & _ & Hcat).
  exists (map snd parsed). split.
  - clear - HF. induction HF as [|l [n bs] ls ps Hp _ IH]; constructor;
      [|exact IH].
    unfold parse_line in Hp. unfold line_bytes.
    destruct (split_line_num l) as [[m txt]|e]; [|discriminate].
    cbn [bind] in *. destruct (scan_manager TOKENS txt); [|discriminate].
    now injection Hp as _ ->.
  - rewrite concat_app, length_app, Hcat. cbn [List.concat List.length app].
    rewrite length_app. unfold header_of. rewrite Z.eqb_refl.
    assert (Hfr : forall ps addr,
              List.length (frames addr ps) = frames_size (map snd ps)).
    { induction ps as [|[n bs] ps IHps]; intros addr; [reflexivity|].
      cbn [frames map snd frames_size]. unfold frame.
      rewrite !length_app, IHps. cbn [le_bytes List.length]. lia. }
    rewrite Hfr.
    inversion HF; subst; cbn [List.length le_bytes map frames_size]; lia.
Qed.

(** The stream assembled from no line is the two bytes of the end
    marker; from N > 0 lines it is 4 bytes (load address and end marker)
    and, for each line, 4 bytes and the line's tokenized bytes long. *)
Theorem assembled_stream_length (TOKENS : option table) (load : Z)
  (lines_list : list string) (out : list Z) :
  assemble TOKENS load lines_list = Ok out ->
  exists toks,
    Forall2 (fun line byte_list => line_bytes TOKENS line = Ok byte_list)
            lines_list toks
    /\ List.length out
       = match lines_list with
         | [] => 2%nat
         | _ => (4 + frames_size toks)%nat
         end.
Proof. apply assemble_length. Qed.

Lemma assembled_stream_length_witness :
  exists toks,
    Forall2 (fun line byte_list =>
               line_bytes (Some CORE_TOKENS) line = Ok byte_list)
            [print_hi; "20 goto 10"] toks
    /\ List.length [1; 8; 12; 8; 10; 0; 153; 32; 34; 72; 73; 34; 0;
                    21; 8; 20; 0; 137; 32; 49; 48; 0; 0; 0]
       = (4 + frames_size toks)%nat.
Proof.
  apply (assembled_stream_length (Some CORE_TOKENS) 2049
           [print_hi; "20 goto 10"]).
  reflexivity.
Defined.

(** When some line of the program does not parse (its number cannot be
    read, or its text cannot be lexed), a run of [main] that got as far
    as writing the .bas file ends in an uncaught exception: the .bas
    file stays written, and no binary file is written. *)
Theorem unparsed_line_aborts (TOKENS : option table) (a : args)
  (io : console) (lines lines_list : list string) (line : string)
  (e : exn) :
  parse_args a = true ->
  file_in a = Some lines ->
  petcat_lines (source a) (read_file lines) = inr lines_list ->
  confirmed (bas_isfile io) (bas_answer io) = true ->
  In line lines_list ->
  parse_line (configure_tokens TOKENS (version a)) line = Raise e ->
  exists e', main TOKENS a io = Run (Uncaught e') (Some lines_list) None.
Proof.
  intros Hargs Hfile Hpet Hbas Hin Hline.
  unfold main. rewrite Hargs, Hfile, Hpet, Hbas. cbn [negb].
  unfold tokenize_and_write.
  destruct (loadaddr a) as [load|e0]; cbn [bind]; [|eauto].
  destruct (assemble (configure_tokens TOKENS (version a)) load lines_list)
    as [out|e1] eqn:Hasm; [|eauto].
  destruct (assemble_parses _ _ _ _ _ Hasm Hin) as [p Hp]. congruence.
Qed.

Lemma unparsed_line_aborts_witness :
  exists e',
    main fresh_interpreter unnumbered_args fresh_disk
    = Run (Uncaught e') (Some ["10 print 1"; "print 2"]) None.
Proof.
  apply (unparsed_line_aborts fresh_interpreter unnumbered_args fresh_disk
           ["10 print 1"; "print 2"] ["10 print 1"; "print 2"]
           "print 2" ValueError); try reflexivity.
  simpl. tauto.
Defined.
